(** * simple-caches: TTLCache, LRUCache and REDISCache

    A shallow embedding of [build/index.js] and the properties of its three
    cache classes.  Both in-memory caches extend the built-in [Map]; their
    behaviour therefore rests on the insertion-ordered semantics of [Map],
    which is modelled first. *)

From Stdlib Require Import ZArith Lia.
From stdpp Require Import base decidable option list strings.

Local Open Scope Z_scope.

(** ** JavaScript values

    Keys and values of the caches are arbitrary JavaScript values.  The model
    keeps the primitives whose truthiness the code tests ([if (value)],
    [if (!value)]) and object references, which are compared by identity.
    Numbers are integers (there is one zero, as under SameValueZero). *)

Inductive value : Type :=
  | VUndefined
  | VNull
  | VBool (b : bool)
  | VNum (n : Z)
  | VNaN
  | VStr (s : string)
  | VRef (r : positive).

#[global] Instance value_eq_dec : EqDecision value.
Proof. solve_decision. Defined.

(** ToBoolean. *)
Definition truthy (v : value) : bool :=
  match v with
  | VUndefined | VNull | VNaN => false
  | VBool b => b
  | VNum n => negb (n =? 0)
  | VStr s => negb (bool_decide (s = ""%string))
  | VRef _ => true
  end.

(** ** The built-in Map

    An insertion-ordered association list.  [set] on a key that is present
    overwrites the value where it stands, and appends otherwise; [delete]
    removes the entry of the key; iteration follows the list.  Keys are
    compared by SameValueZero, which on [value] is equality; they do not
    repeat ([map_NoDup_set], [map_NoDup_delete]). *)

Module JsMap.
Section Ordered.
Context {A : Type}.

Definition t : Type := list (value * A).

Fixpoint get (key : value) (m : t) : option A :=
  match m with
  | [] => None
  | (k, a) :: m' => if decide (key = k) then Some a else get key m'
  end.

Definition has (key : value) (m : t) : bool :=
  match get key m with Some _ => true | None => false end.

Fixpoint set (key : value) (a : A) (m : t) : t :=
  match m with
  | [] => [(key, a)]
  | (k, a') :: m' =>
      if decide (key = k) then (k, a) :: m' else (k, a') :: set key a m'
  end.

Fixpoint delete (key : value) (m : t) : t :=
  match m with
  | [] => []
  | (k, a) :: m' =>
      if decide (key = k) then delete key m' else (k, a) :: delete key m'
  end.

Definition clear (m : t) : t := [].

Definition size (m : t) : Z := Z.of_nat (length m).

Definition keys (m : t) : list value := map fst m.

(** [m.keys().next().value]: the first key, [undefined] on an empty map. *)
Definition first_key (m : t) : value :=
  match keys m with
  | [] => VUndefined
  | k :: _ => k
  end.
End Ordered.
Arguments t : clear implicits.
End JsMap.

(** ** LRUCache

    The capacity is whatever number the constructor is given; nothing checks
    that it is positive. *)

Module LRUCache.

Record t : Type := mk { store : JsMap.t value; capacity : Z }.

(** [constructor(capacity = 100)] *)
Definition constructor (capacity : option Z) : t :=
  {| store := []; capacity := default 100 capacity |}.

(** [super.get(key)]: [undefined] when the key is absent. *)
Definition super_get (key : value) (c : t) : value :=
  default VUndefined (JsMap.get key (store c)).

Definition get (key : value) (c : t) : value * t :=
  let value := super_get key c in
  if negb (truthy value) then (VUndefined, c)
  else
    let s1 := JsMap.delete key (store c) in
    let s2 := JsMap.set key value s1 in
    (value, {| store := s2; capacity := capacity c |}).

Definition set (key value : value) (c : t) : t :=
  let s1 :=
    if JsMap.size (store c) >=? capacity c then
      let value := JsMap.first_key (store c) in
      if truthy value then JsMap.delete value (store c) else store c
    else store c in
  {| store := JsMap.set key value s1; capacity := capacity c |}.

(** Inherited from [Map] without override. *)
Definition has (key : value) (c : t) : bool := JsMap.has key (store c).
Definition size (c : t) : Z := JsMap.size (store c).
Definition keys (c : t) : list value := JsMap.keys (store c).
Definition delete (key : value) (c : t) : bool * t :=
  (JsMap.has key (store c),
   {| store := JsMap.delete key (store c); capacity := capacity c |}).

(** A run of [set] calls, oldest first. *)
Definition set_all (kvs : list (value * value)) (c : t) : t :=
  fold_left (fun c kv => set (fst kv) (snd kv) c) kvs c.

(** [clear] is inherited as well. *)
Definition clear (c : t) : t :=
  {| store := JsMap.clear (store c); capacity := capacity c |}.

(** The calls that change a cache once it is constructed. *)
Inductive op : Type :=
  | OSet (key value : value)
  | OGet (key : value)
  | ODelete (key : value)
  | OClear.

Definition step (o : op) (c : t) : t :=
  match o with
  | OSet key value => set key value c
  | OGet key => snd (get key c)
  | ODelete key => snd (delete key c)
  | OClear => clear c
  end.

(** A run of calls, oldest first. *)
Definition run (os : list op) (c : t) : t :=
  fold_left (fun c o => step o c) os c.

(** No [set] of the run is given a falsy key. *)
Definition truthy_keys (os : list op) : bool :=
  forallb (fun o => match o with OSet key _ => truthy key | _ => true end) os.

End LRUCache.

(** ** Interval timers of the host

    [setInterval] registers a recurring callback and returns a fresh handle;
    [clearInterval] removes it.  Only the timers whose callback is the sweep
    of the cache under study are tracked. *)

Module Timers.

Definition handle : Type := positive.

Record t : Type := mk { active : list handle; next : handle }.

Definition empty : t := {| active := []; next := 1%positive |}.

Definition setInterval (rt : t) : handle * t :=
  (next rt, {| active := active rt ++ [next rt]; next := Pos.succ (next rt) |}).

(** [clearInterval(undefined)] does nothing. *)
Definition clearInterval (h : option handle) (rt : t) : t :=
  match h with
  | Some h => {| active := filter (fun h' => h' <> h) (active rt); next := next rt |}
  | None => rt
  end.

Definition running (h : handle) (rt : t) : bool := bool_decide (h ∈ active rt).

End Timers.

(** ** TTLCache

    [Date.now()] is an input of every operation that reads the clock. *)

Module TTLCache.

Record t : Type := mk {
  store : JsMap.t value;
  interval : Z;
  expirationTimes : JsMap.t Z;
  expirationInterval : option Timers.handle
}.

(** The cache together with the host's timer table. *)
Definition world : Type := t * Timers.t.

Definition with_handle (h : option Timers.handle) (c : t) : t :=
  {| store := store c; interval := interval c;
     expirationTimes := expirationTimes c; expirationInterval := h |}.

(** [this.expirationTimes.delete(key); super.delete(key);] *)
Definition expire (key : value) (c : t) : t :=
  {| store := JsMap.delete key (store c); interval := interval c;
     expirationTimes := JsMap.delete key (expirationTimes c);
     expirationInterval := expirationInterval c |}.

(** The [forEach] of the interval callback. *)
Definition sweep (now : Z) (c : t) : t :=
  fold_left
    (fun c entry => if now >? snd entry then expire (fst entry) c else c)
    (expirationTimes c) c.

(** The body of the interval callback. *)
Definition callback (now : Z) (w : world) : world :=
  let c := sweep now (fst w) in
  if JsMap.size (expirationTimes c) =? 0 then
    (with_handle None c, Timers.clearInterval (expirationInterval c) (snd w))
  else (c, snd w).

(** The host fires the timer [h]: the callback runs only while [h] is
    registered. *)
Definition fire (h : Timers.handle) (now : Z) (w : world) : world :=
  if Timers.running h (snd w) then callback now w else w.

Definition startExpirationInterval (w : world) : world :=
  let c := fst w in
  if negb (bool_decide (is_Some (expirationInterval c)))
     && (JsMap.size (expirationTimes c) >? 0) && (interval c >? 0)
  then
    let (h, rt) := Timers.setInterval (snd w) in
    (with_handle (Some h) c, rt)
  else w.

(** [constructor(interval = 0)] *)
Definition constructor (interval : option Z) (rt : Timers.t) : world :=
  let c := {| store := []; interval := default 0 interval;
              expirationTimes := []; expirationInterval := None |} in
  if TTLCache.interval c >? 0 then startExpirationInterval (c, rt) else (c, rt).

(** [set(key, data, ttl = this.interval)]: the default applies when the
    argument is omitted ([None]), not when it is [0]. *)
Definition set (key data : value) (ttl : option Z) (now : Z) (w : world) : world :=
  let c := fst w in
  let ttl := default (interval c) ttl in
  let expirationTime := now + ttl in
  startExpirationInterval
    ({| store := JsMap.set key data (store c); interval := interval c;
        expirationTimes := JsMap.set key expirationTime (expirationTimes c);
        expirationInterval := expirationInterval c |}, snd w).

(** [expirationTime && Date.now() > expirationTime] *)
Definition stale (expirationTime : option Z) (now : Z) : bool :=
  match expirationTime with
  | Some e => negb (e =? 0) && (now >? e)
  | None => false
  end.

Definition get (key : value) (now : Z) (c : t) : value * t :=
  let expirationTime := JsMap.get key (expirationTimes c) in
  if stale expirationTime now then (VUndefined, expire key c)
  else (default VUndefined (JsMap.get key (store c)), c).

Definition delete (key : value) (c : t) : bool * t :=
  (JsMap.has key (store c), expire key c).

Definition clear (c : t) : t :=
  {| store := JsMap.clear (store c); interval := interval c;
     expirationTimes := JsMap.clear (expirationTimes c);
     expirationInterval := expirationInterval c |}.

(** Inherited from [Map] without override: neither reads the clock. *)
Definition has (key : value) (c : t) : bool := JsMap.has key (store c).
Definition size (c : t) : Z := JsMap.size (store c).

(** Everything that can happen to a cache once it is constructed. *)
Inductive op : Type :=
  | OSet (key data : value) (ttl : option Z) (now : Z)
  | OGet (key : value) (now : Z)
  | ODelete (key : value)
  | OClear
  | OFire (h : Timers.handle) (now : Z).

Definition step (o : op) (w : world) : world :=
  match o with
  | OSet key data ttl now => set key data ttl now w
  | OGet key now => (snd (get key now (fst w)), snd w)
  | ODelete key => (snd (delete key (fst w)), snd w)
  | OClear => (clear (fst w), snd w)
  | OFire h now => fire h now w
  end.

Inductive reachable : world -> Prop :=
  | reach_new (interval : option Z) : reachable (constructor interval Timers.empty)
  | reach_step (o : op) (w : world) : reachable w -> reachable (step o w).

(** The operations through which the source removes an entry of [key]. *)
Definition removes (key : value) (o : op) : bool :=
  match o with
  | OGet k _ => bool_decide (k = key)
  | ODelete k => bool_decide (k = key)
  | OClear => true
  | OFire _ _ => true
  | OSet _ _ _ _ => false
  end.

(** A run of operations, oldest first. *)
Definition run (os : list op) (w : world) : world :=
  fold_left (fun w o => step o w) os w.

Definition is_set (o : op) : bool :=
  match o with
  | OSet _ _ _ _ => true
  | _ => false
  end.

(** The invariant of constructed caches: the expiry index and the value store
    hold the same keys in the same order, without repetition; the host runs
    the sweep timer exactly when the cache holds its handle, which happens
    only under a positive interval. *)
Record wf (w : world) : Prop := mk_wf {
  wf_keys : JsMap.keys (expirationTimes (fst w)) = JsMap.keys (store (fst w));
  wf_nodup : NoDup (JsMap.keys (store (fst w)));
  wf_timer :
    Timers.active (snd w)
    = match expirationInterval (fst w) with Some h => [h] | None => [] end;
  wf_interval : is_Some (expirationInterval (fst w)) -> 0 < interval (fst w)
}.

End TTLCache.

(** ** REDISCache

    The Redis client ([RedisClientType] of [../types/types]) and [JSON] are
    taken as parameters: any call may reject, and a client call may change the
    state of the remote store.  An [async] method is modelled by the outcome of
    its promise, [inl e] for a rejection with [e]. *)

Module REDISCache.
Section Facade.
Context {V R exn : Type}.

(** The remote store and what [console.error] printed. *)
Definition state : Type := R * list exn.

Definition M (A : Type) : Type := state -> (exn + A) * state.

Definition ret {A} (a : A) : M A := fun s => (inr a, s).

Definition bind {A B} (m : M A) (k : A -> M B) : M B :=
  fun s =>
    match m s with
    | (inl e, s') => (inl e, s')
    | (inr a, s') => k a s'
    end.

(** [try { body } catch (error) { handler }] *)
Definition try_catch {A} (body : M A) (handler : exn -> M A) : M A :=
  fun s =>
    match body s with
    | (inl e, s') => handler e s'
    | (inr a, s') => (inr a, s')
    end.

Definition console_error (e : exn) : M unit :=
  fun s => (inr tt, (fst s, snd s ++ [e])).

(** A call of the client: runs on the store, leaves the log alone. *)
Definition await {A} (call : R -> (exn + A) * R) : M A :=
  fun s => let (r, st) := call (fst s) in (r, (st, snd s)).

(** A synchronous call that may throw. *)
Definition eval {A} (r : exn + A) : M A := fun s => (r, s).

Record RedisClientType : Type := {
  redis_get : string -> R -> (exn + option string) * R;
  redis_set : string -> string -> option Z -> R -> (exn + unit) * R;
  redis_del : list string -> R -> (exn + Z) * R;
  redis_exists : string -> R -> (exn + Z) * R;
  redis_keys : string -> R -> (exn + list string) * R
}.

(** A [JSON.stringify] that yields [undefined] hands the client a payload it
    rejects; that run is the [inl] case of [JSON_stringify]. *)
Record JSONType : Type := {
  JSON_parse : string -> exn + V;
  JSON_stringify : V -> exn + string
}.

Record t : Type := mk { identifier : string; redis : RedisClientType; JSON : JSONType }.

Local Notation "'do' x <- m ; k" := (bind m (fun x => k))
  (at level 10, x name, m at level 100, k at level 200).

(** A string is truthy unless empty; [null] is falsy. *)
Definition present (value : option string) : option string :=
  match value with
  | Some s => if bool_decide (s = ""%string) then None else Some s
  | None => None
  end.

Definition raw_key (c : t) (key : string) : string :=
  (identifier c ++ ":" ++ key)%string.

Definition get_body (c : t) (key : string) : M (option V) :=
  do value <- await (redis_get (redis c) (raw_key c key)) ;
  match present value with
  | Some s => do v <- eval (JSON_parse (JSON c) s) ; ret (Some v)
  | None => ret None
  end.

Definition get (c : t) (key : string) : M (option V) :=
  try_catch (get_body c key) (fun error => do _ <- console_error error ; ret None).

Definition set_body (c : t) (key : string) (value : V) (ttl : Z) : M bool :=
  if ttl >? 0 then
    do payload <- eval (JSON_stringify (JSON c) value) ;
    do _ <- await (redis_set (redis c) (raw_key c key) payload (Some ttl)) ;
    ret true
  else
    do payload <- eval (JSON_stringify (JSON c) value) ;
    do _ <- await (redis_set (redis c) (raw_key c key) payload None) ;
    ret true.

(** [set(key, value, ttl = 0)] *)
Definition set (c : t) (key : string) (value : V) (ttl : option Z) : M bool :=
  try_catch (set_body c key value (default 0 ttl))
    (fun error => do _ <- console_error error ; ret false).

Definition delete_body (c : t) (key : string) : M bool :=
  do n <- await (redis_del (redis c) [raw_key c key]) ; ret (n =? 1).

Definition delete (c : t) (key : string) : M bool :=
  try_catch (delete_body c key) (fun error => do _ <- console_error error ; ret false).

Definition has_body (c : t) (key : string) : M bool :=
  do n <- await (redis_exists (redis c) (raw_key c key)) ; ret (n =? 1).

Definition has (c : t) (key : string) : M bool :=
  try_catch (has_body c key) (fun error => do _ <- console_error error ; ret false).

(** [for (const key of keys) { ... values.push(...) }] *)
Fixpoint values_loop (c : t) (keys : list string) (values : list V) : M (list V) :=
  match keys with
  | [] => ret values
  | key :: keys' =>
      do value <- await (redis_get (redis c) key) ;
      match present value with
      | Some s =>
          do v <- eval (JSON_parse (JSON c) s) ;
          values_loop c keys' (values ++ [v])
      | None => values_loop c keys' values
      end
  end.

Definition values_body (c : t) : M (list V) :=
  do keys <- await (redis_keys (redis c) (identifier c ++ ":*")%string) ;
  values_loop c keys [].

Definition values (c : t) : M (list V) :=
  try_catch (values_body c) (fun error => do _ <- console_error error ; ret []).

Definition clear_body (c : t) : M unit :=
  do keys <- await (redis_keys (redis c) (identifier c ++ ":*")%string) ;
  if Z.of_nat (length keys) >? 0 then
    do _ <- await (redis_del (redis c) keys) ; ret tt
  else ret tt.

Definition clear (c : t) : M unit :=
  try_catch (clear_body c) (fun err => console_error err).

Definition size_body (c : t) : M Z :=
  do keys <- await (redis_keys (redis c) (identifier c ++ ":*")%string) ;
  ret (Z.of_nat (length keys)).

Definition size (c : t) : M Z :=
  try_catch (size_body c) (fun error => do _ <- console_error error ; ret 0).

(** An operation is fail-soft with neutral result [neutral]: it never
    rejects; where its body completes it returns the body's result and state,
    where the body fails with [e] it returns [neutral], having printed [e] and
    nothing else. *)
Definition fail_soft {A} (body op : M A) (neutral : A) : Prop :=
  forall s : state,
    match body s with
    | (inr a, s') => op s = (inr a, s')
    | (inl e, s') => op s = (inr neutral, (fst s', snd s' ++ [e]))
    end.

Definition never_throws {A} (op : M A) : Prop :=
  forall s : state, exists a s', op s = (inr a, s').

End Facade.
Arguments t : clear implicits.
Arguments RedisClientType : clear implicits.
Arguments JSONType : clear implicits.
End REDISCache.

(** A test double for the client: an in-memory store that rejects every
    call while it is [down], and a [JSON] for booleans. *)

Module FlakyStore.

Record R : Type := mk { entries : list (string * string); down : bool }.

Inductive exn : Type := ConnectionLost | SyntaxError.

Definition guard {A} (f : R -> A * R) (r : R) : (exn + A) * R :=
  if down r then (inl ConnectionLost, r)
  else let (a, r') := f r in (inr a, r').

Definition lookup (k : string) (r : R) : option string :=
  snd <$> find (fun e => bool_decide (fst e = k)) (entries r).

Definition remove (ks : list string) (r : R) : R :=
  {| entries := filter (fun e => fst e ∉ ks) (entries r); down := down r |}.

(** The namespace of a pattern [prefix*]. *)
Definition matches (pattern k : string) : bool :=
  String.prefix (String.substring 0 (String.length pattern - 1) pattern) k.

Definition client : REDISCache.RedisClientType R exn := {|
  REDISCache.redis_get k := guard (fun r => (lookup k r, r));
  REDISCache.redis_set k payload _ :=
    guard (fun r => (tt, {| entries := (k, payload) :: entries (remove [k] r);
                            down := down r |}));
  REDISCache.redis_del ks :=
    guard (fun r => (Z.of_nat (length (entries r)) - Z.of_nat (length (entries (remove ks r))),
                     remove ks r));
  REDISCache.redis_exists k :=
    guard (fun r => (match lookup k r with Some _ => 1 | None => 0 end, r));
  REDISCache.redis_keys pattern :=
    guard (fun r => (filter (fun k => matches pattern k = true) (map fst (entries r)), r))
|}.

Definition json : REDISCache.JSONType bool exn := {|
  REDISCache.JSON_parse s :=
    if bool_decide (s = "true"%string) then inr true
    else if bool_decide (s = "false"%string) then inr false
    else inl SyntaxError;
  REDISCache.JSON_stringify b := inr (if b then "true" else "false")%string
|}.

Definition cache : REDISCache.t bool R exn :=
  {| REDISCache.identifier := "app"; REDISCache.redis := client; REDISCache.JSON := json |}.

End FlakyStore.

(** * Properties of the built-in Map model *)

Section MapFacts.
Context {A : Type}.
Implicit Types (m : JsMap.t A) (k key : value) (a : A).

Lemma map_get_None m key : JsMap.get key m = None <-> key ∉ JsMap.keys m.
Proof.
  induction m as [|[k a] m IH]; simpl.
  - split; [intros _; apply not_elem_of_nil | done].
  - rewrite not_elem_of_cons, <- IH.
    destruct (decide (key = k)); split; try done; tauto.
Qed.

Lemma map_has_true m key : JsMap.has key m = true <-> key ∈ JsMap.keys m.
Proof.
  unfold JsMap.has. destruct (JsMap.get key m) eqn:E.
  - split; [intros _|done]. destruct (decide (key ∈ JsMap.keys m)) as [|Hn]; [done|].
    apply map_get_None in Hn. congruence.
  - apply map_get_None in E. split; [done | intros; contradiction].
Qed.

Lemma map_has_false m key : JsMap.has key m = false <-> JsMap.get key m = None.
Proof. unfold JsMap.has. destruct (JsMap.get key m); split; congruence. Qed.

Lemma map_get_set_eq m key a : JsMap.get key (JsMap.set key a m) = Some a.
Proof.
  induction m as [|[k a'] m IH]; simpl.
  - by rewrite decide_True.
  - destruct (decide (key = k)) as [->|Hne]; simpl.
    + by rewrite decide_True.
    + by rewrite decide_False.
Qed.

Lemma map_get_set_ne m key k a :
  k <> key -> JsMap.get k (JsMap.set key a m) = JsMap.get k m.
Proof.
  intros Hne. induction m as [|[k' a'] m IH]; simpl.
  - by rewrite decide_False.
  - destruct (decide (key = k')) as [->|Hne']; simpl.
    + by rewrite !decide_False.
    + destruct (decide (k = k')); [done | apply IH].
Qed.

Lemma map_get_delete_eq m key : JsMap.get key (JsMap.delete key m) = None.
Proof.
  induction m as [|[k a] m IH]; simpl; [done|].
  destruct (decide (key = k)); simpl; [done|]. by rewrite decide_False.
Qed.

Lemma map_get_delete_ne m key k :
  k <> key -> JsMap.get k (JsMap.delete key m) = JsMap.get k m.
Proof.
  intros Hne. induction m as [|[k' a] m IH]; simpl; [done|].
  destruct (decide (key = k')) as [->|Hne']; simpl.
  - by rewrite decide_False.
  - destruct (decide (k = k')); [done | apply IH].
Qed.

Lemma map_delete_absent m key : JsMap.get key m = None -> JsMap.delete key m = m.
Proof.
  induction m as [|[k a] m IH]; simpl; [done|].
  destruct (decide (key = k)); [done|]. intros H. by rewrite IH.
Qed.

Lemma map_set_absent m key a :
  JsMap.get key m = None -> JsMap.set key a m = m ++ [(key, a)].
Proof.
  induction m as [|[k a'] m IH]; simpl; [done|].
  destruct (decide (key = k)); [done|]. intros H. by rewrite IH.
Qed.

Lemma map_keys_set_present m key a :
  key ∈ JsMap.keys m -> JsMap.keys (JsMap.set key a m) = JsMap.keys m.
Proof.
  induction m as [|[k a'] m IH]; simpl.
  - intros H. by apply elem_of_nil in H.
  - destruct (decide (key = k)) as [->|Hne]; simpl; [done|].
    intros [?|Hin]%elem_of_cons; [done|]. f_equal. by apply IH.
Qed.

Lemma map_length_set m key a :
  (length (JsMap.set key a m) <= S (length m))%nat.
Proof.
  induction m as [|[k a'] m IH]; simpl; [lia|].
  destruct (decide (key = k)); simpl; lia.
Qed.

Lemma map_length_delete m key :
  (length (JsMap.delete key m) <= length m)%nat.
Proof.
  induction m as [|[k a] m IH]; simpl; [lia|].
  destruct (decide (key = k)); simpl; lia.
Qed.

Lemma map_length_delete_first m :
  m <> [] -> (length (JsMap.delete (JsMap.first_key m) m) < length m)%nat.
Proof.
  destruct m as [|[k a] m]; [done|]. intros _. unfold JsMap.first_key. simpl.
  rewrite decide_True by done. pose proof (map_length_delete m k). lia.
Qed.

Lemma map_keys_delete m key :
  JsMap.keys (JsMap.delete key m) = filter (fun k => k <> key) (JsMap.keys m).
Proof.
  induction m as [|[k a] m IH]; simpl; [done|].
  rewrite filter_cons. destruct (decide (key = k)) as [->|Hne]; simpl.
  - by rewrite decide_False by (intros H; by apply H).
  - rewrite decide_True by congruence. simpl. by rewrite IH.
Qed.

Lemma map_keys_set_elem m key a k :
  k ∈ JsMap.keys (JsMap.set key a m) <-> k = key \/ k ∈ JsMap.keys m.
Proof.
  induction m as [|[k' a'] m IH]; simpl.
  - rewrite list_elem_of_singleton, elem_of_nil. tauto.
  - destruct (decide (key = k')) as [->|Hne]; simpl.
    + rewrite !elem_of_cons. tauto.
    + rewrite !elem_of_cons, IH. tauto.
Qed.

Lemma map_NoDup_set m key a :
  NoDup (JsMap.keys m) -> NoDup (JsMap.keys (JsMap.set key a m)).
Proof.
  induction m as [|[k a'] m IH]; simpl.
  - intros _. apply NoDup_singleton.
  - rewrite NoDup_cons. intros [Hk Hm].
    destruct (decide (key = k)) as [->|Hne]; simpl.
    + by apply NoDup_cons.
    + apply NoDup_cons. split; [|by apply IH].
      rewrite map_keys_set_elem. intros [->|?]; [by apply Hne | done].
Qed.

Lemma map_NoDup_delete m key :
  NoDup (JsMap.keys m) -> NoDup (JsMap.keys (JsMap.delete key m)).
Proof. rewrite map_keys_delete. apply NoDup_filter. Qed.

End MapFacts.

(** * LRUCache *)

Section LRUFacts.
Implicit Types (c : LRUCache.t) (key k : value).

Lemma lru_eta c : {| LRUCache.store := LRUCache.store c; LRUCache.capacity := LRUCache.capacity c |} = c.
Proof. by destruct c. Qed.

Lemma lru_capacity_set key v c :
  LRUCache.capacity (LRUCache.set key v c) = LRUCache.capacity c.
Proof. done. Qed.

(** Below capacity [set] is the [Map]'s own [set]. *)
Lemma lru_set_below key v c :
  LRUCache.size c < LRUCache.capacity c ->
  LRUCache.store (LRUCache.set key v c) = JsMap.set key v (LRUCache.store c).
Proof.
  intros H. unfold LRUCache.set, LRUCache.size in *. simpl.
  destruct (Z.geb_spec (JsMap.size (LRUCache.store c)) (LRUCache.capacity c)); [lia | done].
Qed.

(** At capacity, a truthy first key is dropped before the insertion. *)
Lemma lru_set_full key v c :
  LRUCache.capacity c <= LRUCache.size c ->
  truthy (JsMap.first_key (LRUCache.store c)) = true ->
  LRUCache.store (LRUCache.set key v c)
  = JsMap.set key v (JsMap.delete (JsMap.first_key (LRUCache.store c)) (LRUCache.store c)).
Proof.
  intros H Ht. unfold LRUCache.set, LRUCache.size in *. simpl.
  destruct (Z.geb_spec (JsMap.size (LRUCache.store c)) (LRUCache.capacity c)); [|lia].
  by rewrite Ht.
Qed.

(** What the eviction of [set] does achieve: with a capacity of at least one
    and truthy keys only, a cache within its capacity stays within it. *)
Lemma lru_set_bound_truthy key v c :
  1 <= LRUCache.capacity c ->
  Forall (fun k => truthy k = true) (LRUCache.keys c) ->
  LRUCache.size c <= LRUCache.capacity c ->
  LRUCache.size (LRUCache.set key v c) <= LRUCache.capacity c.
Proof.
  intros Hcap Hkeys Hsize.
  destruct (Z.lt_ge_cases (LRUCache.size c) (LRUCache.capacity c)) as [Hlt|Hge].
  - unfold LRUCache.size in *. rewrite lru_set_below by done.
    pose proof (map_length_set (LRUCache.store c) key v).
    unfold JsMap.size in *. lia.
  - assert (Hne : LRUCache.store c <> []).
    { intros E. unfold LRUCache.size, JsMap.size in Hge. rewrite E in Hge. simpl in Hge. lia. }
    assert (Ht : truthy (JsMap.first_key (LRUCache.store c)) = true).
    { unfold LRUCache.keys, JsMap.first_key in *.
      destruct (JsMap.keys (LRUCache.store c)) as [|k0 ks] eqn:E.
      - destruct (LRUCache.store c); [done | discriminate].
      - by inversion Hkeys. }
    unfold LRUCache.size in *. rewrite lru_set_full by done.
    pose proof (map_length_delete_first (LRUCache.store c) Hne).
    pose proof (map_length_set
      (JsMap.delete (JsMap.first_key (LRUCache.store c)) (LRUCache.store c)) key v).
    unfold JsMap.size in *. lia.
Qed.

(** A present key below capacity: the value is overwritten where it stands. *)
Lemma lru_set_present_keeps_order key v c :
  key ∈ LRUCache.keys c -> LRUCache.size c < LRUCache.capacity c ->
  LRUCache.keys (LRUCache.set key v c) = LRUCache.keys c.
Proof.
  intros Hin Hlt. unfold LRUCache.keys. rewrite lru_set_below by done.
  by apply map_keys_set_present.
Qed.

(** Filling an empty region: [set] appends while there is room. *)
Lemma lru_set_all_fill kvs c :
  NoDup (LRUCache.keys c ++ JsMap.keys kvs) ->
  LRUCache.size c + Z.of_nat (length kvs) <= LRUCache.capacity c ->
  LRUCache.set_all kvs c
  = {| LRUCache.store := LRUCache.store c ++ kvs; LRUCache.capacity := LRUCache.capacity c |}.
Proof.
  revert c. induction kvs as [|[k v] kvs IH]; intros c Hnd Hsz.
  - simpl. rewrite app_nil_r. by rewrite lru_eta.
  - cbn [LRUCache.set_all fold_left fst snd].
    change (fold_left _ kvs ?x) with (LRUCache.set_all kvs x).
    assert (Hk : JsMap.get k (LRUCache.store c) = None).
    { apply map_get_None. apply NoDup_app in Hnd as (_ & Hd & _).
      intros Hin. apply (Hd k Hin). simpl. apply elem_of_cons. by left. }
    assert (Hs : LRUCache.store (LRUCache.set k v c) = LRUCache.store c ++ [(k, v)]).
    { rewrite lru_set_below.
      - by apply map_set_absent.
      - simpl length in Hsz. lia. }
    rewrite IH.
    + rewrite Hs, lru_capacity_set, <- app_assoc. done.
    + unfold LRUCache.keys, JsMap.keys in *. rewrite Hs.
      rewrite map_app, <- app_assoc. simpl. exact Hnd.
    + unfold LRUCache.size, JsMap.size in *. rewrite Hs, lru_capacity_set.
      rewrite length_app. simpl length in *. lia.
Qed.

End LRUFacts.

Lemma lru_keys_set_truthy key v (c : LRUCache.t) :
  truthy key = true ->
  Forall (fun k => truthy k = true) (LRUCache.keys c) ->
  Forall (fun k => truthy k = true) (LRUCache.keys (LRUCache.set key v c)).
Proof.
  intros Hk Hc. rewrite Forall_forall in *. intros k Hin.
  unfold LRUCache.keys, LRUCache.set in Hin. simpl in Hin.
  apply map_keys_set_elem in Hin as [->|Hin]; [done|].
  apply Hc. unfold LRUCache.keys.
  destruct (JsMap.size (LRUCache.store c) >=? LRUCache.capacity c); [|done].
  destruct (truthy (JsMap.first_key (LRUCache.store c))); [|done].
  rewrite map_keys_delete in Hin. by apply list_elem_of_filter in Hin as [_ ?].
Qed.

(** The capacity bound over any run of [set] calls on a fresh cache, for a
    capacity of at least one and truthy keys. *)
Lemma lru_set_all_bound_truthy (capacity : Z) (kvs : list (value * value)) :
  1 <= capacity ->
  Forall (fun k => truthy k = true) (JsMap.keys kvs) ->
  LRUCache.size (LRUCache.set_all kvs (LRUCache.constructor (Some capacity))) <= capacity.
Proof.
  intros Hcap.
  assert (G : forall c, LRUCache.capacity c = capacity ->
    Forall (fun k => truthy k = true) (LRUCache.keys c) ->
    LRUCache.size c <= capacity ->
    Forall (fun k => truthy k = true) (JsMap.keys kvs) ->
    LRUCache.size (LRUCache.set_all kvs c) <= capacity).
  { induction kvs as [|[k v] kvs IH]; intros c Hc Hks Hsz Hall; [done|].
    simpl in Hall. apply Forall_cons in Hall as [Hk Hall].
    cbn [LRUCache.set_all fold_left fst snd].
    change (fold_left _ kvs ?x) with (LRUCache.set_all kvs x).
    apply IH; [done | by apply lru_keys_set_truthy | | done].
    rewrite <- Hc. apply lru_set_bound_truthy; rewrite ?Hc; done. }
  intros Hall. apply G; [done | apply Forall_nil_2 | | done].
  unfold LRUCache.size, JsMap.size. simpl. lia.
Qed.

(** C1 (the stated bound [size <= capacity] after every [set] fails): with
    capacity 1, [set(0, "a")] followed by [set(1, "b")] leaves two entries.
    The first key [0] is falsy, so [if (value)] skips the eviction. *)
Theorem C1_lru_capacity_exceeded_by_falsy_key :
  let c := LRUCache.set_all [(VNum 0, VStr "a"); (VNum 1, VStr "b")]
             (LRUCache.constructor (Some 1)) in
  LRUCache.keys c = [VNum 0; VNum 1] /\ LRUCache.size c = 2 /\
  ~ (LRUCache.size c <= LRUCache.capacity c).
Proof. vm_compute. repeat split; congruence. Qed.

(** C3 (the stated move of a present key to the most-recent position fails):
    with capacity 3, after [set("a", 1)], [set("b", 2)], [set("a", 3)] the value
    of ["a"] is updated but the iteration order is still ["a"], ["b"], so the
    last key is ["b"] and the next eviction takes ["a"]. *)
Theorem C3_lru_set_present_not_moved :
  let c := LRUCache.set_all
             [(VStr "a", VNum 1); (VStr "b", VNum 2); (VStr "a", VNum 3)]
             (LRUCache.constructor (Some 3)) in
  LRUCache.store c = [(VStr "a", VNum 3); (VStr "b", VNum 2)] /\
  last (LRUCache.keys c) = Some (VStr "b") /\
  LRUCache.keys
    (LRUCache.set_all [(VStr "c", VNum 4); (VStr "d", VNum 5)] c)
  = [VStr "b"; VStr "c"; VStr "d"].
Proof. vm_compute. repeat split. Qed.

(** The same omission at capacity: updating the present key ["b"] evicts
    ["a"], although the update adds no entry. *)
Example lru_update_at_capacity_evicts :
  LRUCache.store
    (LRUCache.set_all [(VStr "a", VNum 1); (VStr "b", VNum 2); (VStr "b", VNum 3)]
       (LRUCache.constructor (Some 2)))
  = [(VStr "b", VNum 3)].
Proof. vm_compute. reflexivity. Qed.

(** C5: [get] on a present key with a falsy value returns [undefined] and
    leaves the cache as it was; on a present key with a truthy value it
    removes the entry, reinserts it at the end of the order and returns the
    value. *)
Theorem C5_lru_get_falsy_value_is_miss (c : LRUCache.t) (key v : value) :
  JsMap.get key (LRUCache.store c) = Some v ->
  (truthy v = false -> LRUCache.get key c = (VUndefined, c)) /\
  (truthy v = true ->
     LRUCache.get key c
     = (v, {| LRUCache.store := JsMap.delete key (LRUCache.store c) ++ [(key, v)];
              LRUCache.capacity := LRUCache.capacity c |}) /\
     last (LRUCache.keys (snd (LRUCache.get key c))) = Some key).
Proof.
  intros Hget. unfold LRUCache.get, LRUCache.super_get. rewrite Hget. simpl.
  split; intros Ht; rewrite Ht; simpl; [done|].
  rewrite map_set_absent by apply map_get_delete_eq. split; [done|].
  unfold LRUCache.keys, JsMap.keys. simpl. rewrite map_app. simpl.
  apply last_snoc.
Qed.

Lemma C5_lru_get_falsy_value_is_miss_witness :
  let c := LRUCache.set_all [(VStr "zero", VNum 0); (VStr "one", VNum 1)]
             (LRUCache.constructor None) in
  JsMap.get (VStr "zero") (LRUCache.store c) = Some (VNum 0) /\
  LRUCache.get (VStr "zero") c = (VUndefined, c).
Proof.
  split; [reflexivity|].
  apply (C5_lru_get_falsy_value_is_miss _ (VStr "zero") (VNum 0)); reflexivity.
Defined.

(** C6 (as stated, for every capacity and every inserted entry, it fails).
    With capacity 1 the refreshed [k1] is also the least recent entry, so
    [set(k2)] evicts it and the fresh key [k2] is the one present.  With
    capacity 2 and a falsy value under [k1], [get(k1)] is a miss without
    refresh and [set(k3)] evicts [k1], not [k2]. *)
Lemma C6_lru_access_refresh_counterexample :
  (let c1 := LRUCache.set_all [(VStr "k1", VNum 1)] (LRUCache.constructor (Some 1)) in
   let c3 := LRUCache.set (VStr "k2") (VNum 2) (snd (LRUCache.get (VStr "k1") c1)) in
   LRUCache.has (VStr "k1") c3 = false /\ LRUCache.has (VStr "k2") c3 = true) /\
  (let c1 := LRUCache.set_all [(VStr "k1", VNum 0); (VStr "k2", VNum 2)]
               (LRUCache.constructor (Some 2)) in
   let c3 := LRUCache.set (VStr "k3") (VNum 3) (snd (LRUCache.get (VStr "k1") c1)) in
   LRUCache.has (VStr "k1") c3 = false /\ LRUCache.has (VStr "k2") c3 = true).
Proof. vm_compute. repeat split. Qed.

(** C6, amended: for a capacity [n >= 2], after inserting [n] distinct keys
    [k1, k2, ..., kn] in order, where the value under [k1] is truthy and the
    key [k2] is truthy, [get(k1)] returns that value and a following [set] of
    a fresh key evicts [k2]: the store is then [k3..kn], [k1], the fresh key,
    in this order. *)
Theorem C6_lru_access_refresh
    (k1 v1 k2 v2 : value) (rest : list (value * value)) (knew vnew : value) :
  let kvs := (k1, v1) :: (k2, v2) :: rest in
  let c1 := LRUCache.set_all kvs (LRUCache.constructor (Some (Z.of_nat (length kvs)))) in
  let c3 := LRUCache.set knew vnew (snd (LRUCache.get k1 c1)) in
  NoDup (JsMap.keys kvs ++ [knew]) ->
  truthy v1 = true ->
  truthy k2 = true ->
  fst (LRUCache.get k1 c1) = v1 /\
  LRUCache.store c3 = rest ++ [(k1, v1); (knew, vnew)] /\
  LRUCache.has k2 c3 = false /\
  LRUCache.has k1 c3 = true /\
  (forall k, k ∈ JsMap.keys rest -> LRUCache.has k c3 = true) /\
  LRUCache.has knew c3 = true /\
  LRUCache.size c3 = Z.of_nat (length kvs).
Proof.
  intros kvs c1 c3 Hnd Hv1 Hk2.
  assert (Hnd' : NoDup (JsMap.keys kvs)) by (by apply NoDup_app in Hnd as (? & _ & _)).
  assert (Hc1 : c1 = {| LRUCache.store := kvs;
                        LRUCache.capacity := Z.of_nat (length kvs) |}).
  { unfold c1. rewrite lru_set_all_fill; [done | done |].
    unfold LRUCache.size, JsMap.size. simpl. lia. }
  (* the keys are pairwise distinct *)
  simpl in Hnd'. apply NoDup_cons in Hnd' as [Hk1 Hnd'].
  apply NoDup_cons in Hnd' as [Hk2r Hrest].
  apply not_elem_of_cons in Hk1 as [Hk12 Hk1r].
  assert (Hnew : knew ∉ JsMap.keys kvs).
  { apply NoDup_app in Hnd as (_ & Hd & _). intros Hin.
    apply (Hd knew Hin). apply list_elem_of_singleton. done. }
  simpl in Hnew. apply not_elem_of_cons in Hnew as [Hn1 Hnew].
  apply not_elem_of_cons in Hnew as [Hn2 Hnr].
  (* get(k1) moves k1 behind kn *)
  assert (Hget : LRUCache.get k1 c1
                 = (v1, {| LRUCache.store := (k2, v2) :: rest ++ [(k1, v1)];
                           LRUCache.capacity := Z.of_nat (length kvs) |})).
  { rewrite Hc1. unfold LRUCache.get, LRUCache.super_get, kvs. simpl.
    rewrite decide_True by done. simpl. rewrite Hv1. simpl.
    rewrite decide_True by done. rewrite decide_False by done.
    rewrite (map_delete_absent rest k1) by (by apply map_get_None).
    simpl. rewrite decide_False by done.
    rewrite map_set_absent by (by apply map_get_None). done. }
  (* set(knew) finds the cache full and drops k2 *)
  assert (Hstore : LRUCache.store c3 = rest ++ [(k1, v1); (knew, vnew)]).
  { unfold c3. rewrite Hget. simpl snd. rewrite lru_set_full.
    - simpl. unfold JsMap.first_key. simpl. rewrite decide_True by done.
      rewrite map_delete_absent.
      + rewrite map_set_absent; [by rewrite <- app_assoc|].
        apply map_get_None. unfold JsMap.keys. rewrite map_app. simpl.
        rewrite elem_of_app, list_elem_of_singleton. intros [?|?]; [by apply Hnr | by apply Hn1].
      + apply map_get_None. unfold JsMap.keys. rewrite map_app. simpl.
        rewrite elem_of_app, list_elem_of_singleton.
        intros [?|?]; [by apply Hk2r | by apply Hk12].
    - unfold LRUCache.size, JsMap.size, kvs. simpl.
      rewrite length_app. simpl. lia.
    - done. }
  assert (Hkeys : JsMap.keys (LRUCache.store c3) = JsMap.keys rest ++ [k1; knew]).
  { rewrite Hstore. unfold JsMap.keys. by rewrite map_app. }
  split; [by rewrite Hget|]. split; [done|].
  unfold LRUCache.has. repeat split.
  - apply map_has_false, map_get_None. rewrite Hkeys.
    rewrite elem_of_app, !elem_of_cons, elem_of_nil.
    intros [?|[?|[?|[]]]]; [by apply Hk2r | by apply Hk12 | by apply Hn2].
  - apply map_has_true. rewrite Hkeys, elem_of_app, !elem_of_cons. tauto.
  - intros k Hk. apply map_has_true. rewrite Hkeys, elem_of_app. tauto.
  - apply map_has_true. rewrite Hkeys, elem_of_app, !elem_of_cons. tauto.
  - unfold LRUCache.size, JsMap.size, kvs. rewrite Hstore, length_app. simpl. lia.
Qed.

Lemma C6_lru_access_refresh_witness :
  let kvs := [(VStr "k1", VNum 1); (VStr "k2", VNum 2); (VStr "k3", VNum 3)] in
  let c1 := LRUCache.set_all kvs (LRUCache.constructor (Some 3)) in
  let c3 := LRUCache.set (VStr "k4") (VNum 4) (snd (LRUCache.get (VStr "k1") c1)) in
  NoDup (JsMap.keys kvs ++ [VStr "k4"]) /\
  LRUCache.store c3 = [(VStr "k3", VNum 3); (VStr "k1", VNum 1); (VStr "k4", VNum 4)].
Proof.
  assert (Hnd : NoDup (JsMap.keys [(VStr "k1", VNum 1); (VStr "k2", VNum 2);
                                   (VStr "k3", VNum 3)] ++ [VStr "k4"])).
  { apply (bool_decide_unpack _). vm_compute. exact I. }
  split; [exact Hnd|].
  apply (C6_lru_access_refresh (VStr "k1") (VNum 1) (VStr "k2") (VNum 2)
           [(VStr "k3", VNum 3)] (VStr "k4") (VNum 4) Hnd); reflexivity.
Defined.

(** * TTLCache *)

Lemma map_keys_set_congr {A B : Type} (m1 : JsMap.t A) (m2 : JsMap.t B) key a b :
  JsMap.keys m1 = JsMap.keys m2 ->
  JsMap.keys (JsMap.set key a m1) = JsMap.keys (JsMap.set key b m2).
Proof.
  revert m2. induction m1 as [|[k1 a1] m1 IH]; intros [|[k2 b2] m2]; simpl; try done.
  intros [= -> Hk]. destruct (decide (key = k2)); simpl; f_equal; auto.
Qed.

Section TTLFacts.
Import TTLCache.
Implicit Types (c : TTLCache.t) (w : world) (key k : value) (now : Z).

Lemma ttl_sweep_ind (P : TTLCache.t -> Prop) now c :
  (forall k c', P c' -> P (expire k c')) -> P c -> P (sweep now c).
Proof.
  intros Hstep. unfold sweep. generalize (expirationTimes c) as l.
  intros l. revert c. induction l as [|[k e] l IH]; intros c Hc; simpl; [done|].
  apply IH. destruct (now >? e); auto.
Qed.

Lemma ttl_sweep_handle now c :
  expirationInterval (sweep now c) = expirationInterval c.
Proof. by apply (ttl_sweep_ind (fun c' => expirationInterval c' = expirationInterval c)). Qed.

Lemma ttl_sweep_interval now c : interval (sweep now c) = interval c.
Proof. by apply (ttl_sweep_ind (fun c' => interval c' = interval c)). Qed.

Lemma ttl_expire_keys key c :
  JsMap.keys (expirationTimes c) = JsMap.keys (store c) ->
  JsMap.keys (expirationTimes (expire key c)) = JsMap.keys (store (expire key c)).
Proof. intros H. simpl. by rewrite !map_keys_delete, H. Qed.

Lemma ttl_expire_wf key c rt : wf (c, rt) -> wf (expire key c, rt).
Proof.
  intros [Hk Hn Ht Hi]. simpl in *. constructor; simpl; try done.
  - by apply ttl_expire_keys.
  - by apply map_NoDup_delete.
Qed.

Lemma ttl_sweep_wf now c rt : wf (c, rt) -> wf (sweep now c, rt).
Proof.
  intros H. apply (ttl_sweep_ind (fun c' => wf (c', rt))); [|done].
  intros k c'. apply ttl_expire_wf.
Qed.

Lemma ttl_start_cache w :
  exists h, fst (startExpirationInterval w) = with_handle h (fst w).
Proof.
  unfold startExpirationInterval.
  destruct (_ && _ && _); simpl; [by eexists|].
  exists (expirationInterval (fst w)). by destruct w as [[] ?].
Qed.

Lemma ttl_start_wf w : wf w -> wf (startExpirationInterval w).
Proof.
  intros [Hk Hn Ht Hi]. unfold startExpirationInterval.
  destruct (negb _) eqn:E1; simpl; [|by constructor].
  destruct (_ >? 0) eqn:E2; simpl; [|by constructor].
  destruct (interval (fst w) >? 0) eqn:E3; simpl; [|by constructor].
  apply negb_true_iff, bool_decide_eq_false in E1.
  destruct (expirationInterval (fst w)) eqn:E; [by destruct E1|].
  constructor; simpl; try done.
  - by rewrite Ht.
  - intros _. lia.
Qed.

Lemma ttl_set_wf key data ttl now w : wf w -> wf (set key data ttl now w).
Proof.
  intros [Hk Hn Ht Hi]. unfold set. apply ttl_start_wf.
  constructor; simpl; try done.
  - by apply map_keys_set_congr.
  - by apply map_NoDup_set.
Qed.

Lemma ttl_callback_wf now w : wf w -> wf (callback now w).
Proof.
  intros H. destruct w as [c rt].
  pose proof (ttl_sweep_wf now c rt H) as [Hk Hn Ht Hi]. simpl in *.
  unfold callback. simpl. destruct (_ =? 0); constructor; simpl; try done.
  destruct (expirationInterval (sweep now c)) as [h|]; simpl; rewrite Ht; [|done].
  rewrite filter_cons, decide_False by (intros ?; done). done.
Qed.

Lemma ttl_step_wf o w : wf w -> wf (step o w).
Proof.
  intros H. destruct o as [key data ttl now|key now|key| |h now]; simpl.
  - by apply ttl_set_wf.
  - unfold get. destruct (stale _ _); simpl.
    + apply ttl_expire_wf. by destruct w.
    + by destruct w.
  - apply ttl_expire_wf. by destruct w.
  - destruct H as [Hk Hn Ht Hi]. constructor; simpl; try done. apply NoDup_nil_2.
  - unfold fire. destruct (Timers.running _ _); [by apply ttl_callback_wf | done].
Qed.

Lemma ttl_constructor_wf interval0 : wf (constructor interval0 Timers.empty).
Proof.
  unfold constructor. simpl.
  assert (wf ({| store := []; interval := default 0 interval0;
                 expirationTimes := []; expirationInterval := None |}, Timers.empty)).
  { constructor; simpl; [done | apply NoDup_nil_2 | done | intros [? [=]]]. }
  destruct (_ >? 0); [by apply ttl_start_wf | done].
Qed.

Lemma ttl_reachable_wf w : reachable w -> wf w.
Proof.
  induction 1 as [interval0 | o w _ IH].
  - apply ttl_constructor_wf.
  - by apply ttl_step_wf.
Qed.

End TTLFacts.

Section TTLExpiry.
Import TTLCache.
Implicit Types (c : TTLCache.t) (w : world) (key k : value).

Local Ltac open_start :=
  match goal with
  | |- context [startExpirationInterval ?x] =>
      let h := fresh "h" in destruct (ttl_start_cache x) as [h ->]
  end.

Lemma ttl_set_store key data ttl now w :
  store (fst (set key data ttl now w)) = JsMap.set key data (store (fst w)).
Proof. unfold set. by open_start. Qed.

Lemma ttl_set_expirationTimes key data ttl now w :
  expirationTimes (fst (set key data ttl now w))
  = JsMap.set key (now + default (interval (fst w)) ttl) (expirationTimes (fst w)).
Proof. unfold set. by open_start. Qed.

Lemma ttl_set_interval key data ttl now w :
  interval (fst (set key data ttl now w)) = interval (fst w).
Proof. unfold set. by open_start. Qed.

(** A read of a key with recorded expiry [e]. *)
Lemma ttl_get_fresh key now c e v :
  JsMap.get key (expirationTimes c) = Some e ->
  JsMap.get key (store c) = Some v ->
  now <= e -> get key now c = (v, c).
Proof.
  intros He Hv Hle. unfold get. rewrite He, Hv. simpl.
  destruct (Z.gtb_spec now e); [lia|]. by rewrite andb_false_r.
Qed.

Lemma ttl_get_stale key now c e :
  JsMap.get key (expirationTimes c) = Some e ->
  e <> 0 -> e < now -> get key now c = (VUndefined, expire key c).
Proof.
  intros He Hz Hlt. unfold get. rewrite He. simpl.
  destruct (Z.eqb_spec e 0); [done|]. destruct (Z.gtb_spec now e); [done|lia].
Qed.

(** C2 (as stated it fails): under an interval of 1000, [set(k, v, 0)] at
    time 5000 records the expiry 5000 where [set(k, v)] records 6000; a read
    at 5001 misses the former entry and returns the latter. *)
Lemma C2_ttl_zero_counterexample :
  let w := constructor (Some 1000) Timers.empty in
  let explicit0 := set (VStr "k") (VStr "v") (Some 0) 5000 w in
  let omitted := set (VStr "k") (VStr "v") None 5000 w in
  explicit0 <> omitted /\
  JsMap.get (VStr "k") (expirationTimes (fst explicit0)) = Some 5000 /\
  JsMap.get (VStr "k") (expirationTimes (fst omitted)) = Some 6000 /\
  fst (get (VStr "k") 5001 (fst explicit0)) = VUndefined /\
  fst (get (VStr "k") 5001 (fst omitted)) = VStr "v".
Proof. vm_compute. repeat split; congruence. Qed.

(** C2, amended: the configured interval replaces the ttl only when the
    argument is omitted, and then [set(k, v)] is [set(k, v, interval)].  An
    explicit ttl of 0 is used as given: the recorded expiry is the instant
    of the call, the entry is still returned by a read at that instant, and
    a read at any later instant misses and removes it (the instant of the
    call being non-zero, as every clock reading is). *)
Theorem C2_ttl_zero_used_as_given w key data now r :
  let w0 := set key data (Some 0) now w in
  now <> 0 -> now < r ->
  set key data None now w = set key data (Some (interval (fst w))) now w /\
  (w0 = set key data None now w <-> interval (fst w) = 0) /\
  JsMap.get key (expirationTimes (fst w0)) = Some now /\
  get key now (fst w0) = (data, fst w0) /\
  get key r (fst w0) = (VUndefined, expire key (fst w0)) /\
  has key (expire key (fst w0)) = false.
Proof.
  intros w0 Hnz Hlt.
  assert (He : JsMap.get key (expirationTimes (fst w0)) = Some now).
  { unfold w0. rewrite ttl_set_expirationTimes. simpl.
    rewrite Z.add_0_r. apply map_get_set_eq. }
  assert (Hv : JsMap.get key (store (fst w0)) = Some data).
  { unfold w0. rewrite ttl_set_store. apply map_get_set_eq. }
  split; [done|]. split; [|split; [done|split; [|split]]].
  - split.
    + intros Heq.
      apply (f_equal (fun w => JsMap.get key (expirationTimes (fst w)))) in Heq.
      rewrite He, ttl_set_expirationTimes, map_get_set_eq in Heq.
      simpl in Heq. injection Heq. lia.
    + intros Hi. unfold w0.
      change (set key data None now w)
        with (set key data (Some (interval (fst w))) now w).
      by rewrite Hi.
  - apply (ttl_get_fresh _ _ _ now); [done | done | lia].
  - by apply (ttl_get_stale _ _ _ now).
  - apply map_has_false. simpl. apply map_get_delete_eq.
Qed.

Lemma C2_ttl_zero_used_as_given_witness :
  let w0 := set (VStr "k") (VStr "v") (Some 0) 5000 (constructor (Some 1000) Timers.empty) in
  (5000 <> 0 /\ 5000 < 5001) /\
  get (VStr "k") 5001 (fst w0) = (VUndefined, expire (VStr "k") (fst w0)).
Proof.
  split; [lia|].
  apply (C2_ttl_zero_used_as_given (constructor (Some 1000) Timers.empty)
           (VStr "k") (VStr "v") 5000 5001); lia.
Defined.

(** C4: an entry set at time [s] with ttl [t] (the expiry [s + t] being a
    non-zero instant) is returned by any read before [s + t] and by a read
    at exactly [s + t], the cache staying as it is; a read after [s + t]
    returns [undefined] and removes the key from the value store and from
    the expiry index. *)
Theorem C4_ttl_expiry_boundary w key data s t r :
  let c := fst (set key data (Some t) s w) in
  s + t <> 0 ->
  (r < s + t -> get key r c = (data, c)) /\
  (r = s + t -> get key r c = (data, c)) /\
  (s + t < r ->
     fst (get key r c) = VUndefined /\
     JsMap.has key (store (snd (get key r c))) = false /\
     JsMap.has key (expirationTimes (snd (get key r c))) = false).
Proof.
  intros c Hnz.
  assert (He : JsMap.get key (expirationTimes c) = Some (s + t)).
  { unfold c. rewrite ttl_set_expirationTimes. apply map_get_set_eq. }
  assert (Hv : JsMap.get key (store c) = Some data).
  { unfold c. rewrite ttl_set_store. apply map_get_set_eq. }
  split; [|split]; intros Hr.
  - apply (ttl_get_fresh _ _ _ (s + t)); [done | done | lia].
  - apply (ttl_get_fresh _ _ _ (s + t)); [done | done | lia].
  - rewrite (ttl_get_stale _ _ _ (s + t)) by done. simpl.
    split; [done|]. split; apply map_has_false, map_get_delete_eq.
Qed.

Lemma C4_ttl_expiry_boundary_witness :
  let c := fst (set (VStr "k") (VNum 7) (Some 250) 1000 (constructor None Timers.empty)) in
  1000 + 250 <> 0 /\
  get (VStr "k") 1249 c = (VNum 7, c) /\
  get (VStr "k") 1250 c = (VNum 7, c) /\
  fst (get (VStr "k") 1251 c) = VUndefined.
Proof.
  split; [lia|].
  destruct (C4_ttl_expiry_boundary (constructor None Timers.empty)
              (VStr "k") (VNum 7) 1000 250 1249 ltac:(lia)) as (H1 & _ & _).
  destruct (C4_ttl_expiry_boundary (constructor None Timers.empty)
              (VStr "k") (VNum 7) 1000 250 1250 ltac:(lia)) as (_ & H2 & _).
  destruct (C4_ttl_expiry_boundary (constructor None Timers.empty)
              (VStr "k") (VNum 7) 1000 250 1251 ltac:(lia)) as (_ & _ & H3).
  split; [apply H1; lia|]. split; [apply H2; lia|]. apply H3. lia.
Defined.

End TTLExpiry.

Section TTLLifecycle.
Import TTLCache.
Implicit Types (c : TTLCache.t) (w : world) (key k : value).

Lemma ttl_expire_absent key c :
  JsMap.get key (store c) = None ->
  JsMap.get key (expirationTimes c) = None ->
  expire key c = c.
Proof.
  intros Hs He. unfold expire. rewrite !map_delete_absent by done. by destruct c.
Qed.

Lemma ttl_wf_same_keys w key :
  wf w -> (key ∈ JsMap.keys (expirationTimes (fst w)) <-> key ∈ JsMap.keys (store (fst w))).
Proof. intros [Hk _ _ _]. by rewrite Hk. Qed.

(** C7: in both in-memory caches [delete] of an absent key returns [false]
    and leaves the cache as it was; in the TTL cache [delete] of a present
    key returns [true] and the key is then in neither the value store nor
    the expiry index. *)
Theorem C7_delete_absent_and_present (lc : LRUCache.t) w key :
  reachable w ->
  (LRUCache.has key lc = false -> LRUCache.delete key lc = (false, lc)) /\
  (has key (fst w) = false -> delete key (fst w) = (false, fst w)) /\
  (has key (fst w) = true ->
     fst (delete key (fst w)) = true /\
     JsMap.has key (store (snd (delete key (fst w)))) = false /\
     JsMap.has key (expirationTimes (snd (delete key (fst w)))) = false).
Proof.
  intros Hw%ttl_reachable_wf. split; [|split].
  - unfold LRUCache.has, LRUCache.delete. intros H. rewrite H.
    apply map_has_false in H. rewrite map_delete_absent by done. by rewrite lru_eta.
  - unfold has, delete. intros H. rewrite H. apply map_has_false in H.
    rewrite ttl_expire_absent; [done | done |].
    apply map_get_None. rewrite (ttl_wf_same_keys w key Hw). by apply map_get_None.
  - unfold has, delete. intros H. simpl. split; [done|].
    split; apply map_has_false, map_get_delete_eq.
Qed.

Lemma C7_delete_absent_and_present_witness :
  let lc := LRUCache.set (VStr "a") (VNum 1) (LRUCache.constructor None) in
  let w := step (OSet (VStr "a") (VNum 1) None 10) (constructor (Some 100) Timers.empty) in
  reachable w /\
  LRUCache.delete (VStr "b") lc = (false, lc) /\
  delete (VStr "b") (fst w) = (false, fst w) /\
  fst (delete (VStr "a") (fst w)) = true.
Proof.
  assert (Hw : reachable (step (OSet (VStr "a") (VNum 1) None 10)
                            (constructor (Some 100) Timers.empty))).
  { apply reach_step, reach_new. }
  split; [exact Hw|].
  destruct (C7_delete_absent_and_present
              (LRUCache.set (VStr "a") (VNum 1) (LRUCache.constructor None))
              _ (VStr "b") Hw) as (H1 & H2 & _).
  destruct (C7_delete_absent_and_present
              (LRUCache.set (VStr "a") (VNum 1) (LRUCache.constructor None))
              _ (VStr "a") Hw) as (_ & _ & H3).
  split; [apply H1; reflexivity|]. split; [apply H2; reflexivity|].
  apply H3. reflexivity.
Defined.

(** A read or a delete of another key, and a [set] of any key, keep [key]. *)
Lemma ttl_removal_only_by_removing_ops o w key :
  has key (fst w) = true -> has key (fst (step o w)) = false -> removes key o = true.
Proof.
  unfold has. intros Hin Hout.
  destruct o as [k data ttl now|k now|k| |h now]; simpl in *; try done.
  - rewrite ttl_set_store in Hout. apply map_has_true in Hin.
    apply map_has_false, map_get_None in Hout. destruct Hout.
    apply map_keys_set_elem. by right.
  - apply bool_decide_eq_true. destruct (decide (k = key)) as [|Hne]; [done|].
    unfold get in Hout. destruct (stale _ _); simpl in Hout; [|congruence].
    unfold JsMap.has in *. rewrite map_get_delete_ne in Hout by done. congruence.
  - apply bool_decide_eq_true. destruct (decide (k = key)) as [|Hne]; [done|].
    unfold JsMap.has in *. rewrite map_get_delete_ne in Hout by done. congruence.
Qed.

(** C10: a key whose recorded expiry [e] lies before the current instant is
    still reported by the inherited [has] and counted by the inherited
    [size], neither of which reads the clock; and whatever operation makes
    [has] answer [false] afterwards is a [get] or [delete] of that key, a
    [clear] or a firing of the sweep timer. *)
Theorem C10_ttl_expired_entry_still_present w key e now :
  reachable w ->
  JsMap.get key (expirationTimes (fst w)) = Some e ->
  e < now ->
  has key (fst w) = true /\
  key ∈ JsMap.keys (store (fst w)) /\
  size (fst w) = Z.of_nat (length (JsMap.keys (store (fst w)))) /\
  (forall o, has key (fst (step o w)) = false -> removes key o = true).
Proof.
  intros Hw%ttl_reachable_wf He _.
  assert (Hin : key ∈ JsMap.keys (store (fst w))).
  { apply (ttl_wf_same_keys w key Hw).
    destruct (decide (key ∈ JsMap.keys (expirationTimes (fst w)))) as [|Hn]; [done|].
    apply map_get_None in Hn. congruence. }
  assert (Hhas : has key (fst w) = true) by (by apply map_has_true).
  split; [done|]. split; [done|]. split.
  - unfold size, JsMap.size, JsMap.keys. by rewrite length_map.
  - intros o. by apply ttl_removal_only_by_removing_ops.
Qed.

Lemma C10_ttl_expired_entry_still_present_witness :
  let w := step (OSet (VStr "k") (VStr "v") (Some 5) 100) (constructor None Timers.empty) in
  (reachable w /\ JsMap.get (VStr "k") (expirationTimes (fst w)) = Some 105 /\ 105 < 1000) /\
  has (VStr "k") (fst w) = true /\ size (fst w) = 1 /\
  fst (get (VStr "k") 1000 (fst w)) = VUndefined.
Proof.
  assert (Hw : reachable (step (OSet (VStr "k") (VStr "v") (Some 5) 100)
                            (constructor None Timers.empty))).
  { apply reach_step, reach_new. }
  split; [split; [exact Hw | split; [reflexivity | lia]]|].
  destruct (C10_ttl_expired_entry_still_present _ (VStr "k") 105 1000 Hw
              eq_refl ltac:(lia)) as (H1 & _ & H3 & _).
  split; [exact H1|]. split; [exact H3|]. reflexivity.
Defined.

End TTLLifecycle.

Section TTLSweep.
Import TTLCache.
Implicit Types (c : TTLCache.t) (w : world) (key k : value).

(** A tick at which every recorded expiry has passed empties the index. *)
Lemma ttl_sweep_all_expired now c :
  NoDup (JsMap.keys (expirationTimes c)) ->
  Forall (fun entry => snd entry < now) (expirationTimes c) ->
  expirationTimes (sweep now c) = [].
Proof.
  unfold sweep. remember (expirationTimes c) as l eqn:El.
  revert c El. induction l as [|[k e] l IH]; intros c El Hnd Hall; simpl.
  - done.
  - apply Forall_cons in Hall as [He Hall]. simpl in He, Hnd.
    apply NoDup_cons in Hnd as [Hk Hnd].
    destruct (Z.gtb_spec now e); [|lia].
    apply IH; [|done|done].
    simpl. rewrite <- El. simpl. rewrite decide_True by done.
    symmetry. apply map_delete_absent. by apply map_get_None.
Qed.

(** Without a handle and without a registered timer, nothing but [set]
    starts one. *)
Lemma ttl_quiet_step o w :
  is_set o = false ->
  expirationInterval (fst w) = None -> Timers.active (snd w) = [] ->
  expirationInterval (fst (step o w)) = None /\ Timers.active (snd (step o w)) = [].
Proof.
  intros Ho Hh Ha. destruct o as [k data ttl now|k now|k| |h now]; simpl in *; try done.
  - unfold get. by destruct (stale _ _).
  - unfold fire, Timers.running. rewrite Ha.
    rewrite bool_decide_eq_false_2 by apply not_elem_of_nil. done.
Qed.

Lemma ttl_quiet_run os w :
  forallb (fun o => negb (is_set o)) os = true ->
  expirationInterval (fst w) = None -> Timers.active (snd w) = [] ->
  expirationInterval (fst (run os w)) = None /\ Timers.active (snd (run os w)) = [].
Proof.
  revert w. induction os as [|o os IH]; intros w Hos Hh Ha; simpl; [done|].
  apply andb_true_iff in Hos as [Ho Hos]. apply negb_true_iff in Ho.
  destruct (ttl_quiet_step o w Ho Hh Ha) as [Hh' Ha']. by apply IH.
Qed.

(** [set] on a cache without a handle, under a positive interval, registers
    a timer and keeps its handle. *)
Lemma ttl_set_rearms key data ttl now w :
  expirationInterval (fst w) = None -> Timers.active (snd w) = [] ->
  0 < interval (fst w) ->
  let w' := set key data ttl now w in
  expirationInterval (fst w') = Some (Timers.next (snd w)) /\
  Timers.active (snd w') = [Timers.next (snd w)].
Proof.
  intros Hh Ha Hi. unfold set, startExpirationInterval. simpl.
  rewrite Hh. rewrite bool_decide_eq_false_2 by (intros [? [=]]). simpl.
  assert (Hs : (JsMap.size (JsMap.set key (now + default (interval (fst w)) ttl)
                  (expirationTimes (fst w))) >? 0) = true).
  { unfold JsMap.size. destruct (expirationTimes (fst w)) as [|[k e] m]; simpl.
    - done.
    - destruct (decide (key = k)); simpl; apply Z.gtb_lt; lia. }
  rewrite Hs. simpl. destruct (Z.gtb_spec (interval (fst w)) 0); [|lia].
  simpl. by rewrite Ha.
Qed.

(** C8: while the cache holds the handle [h] of its sweep timer, the host
    does run the callback when [h] fires.  If the expiry index is empty
    after the scan of that tick, the callback has cleared the timer and the
    handle: no timer is registered, every later firing leaves the cache
    untouched, no run of operations other than [set] registers a timer again,
    and the next [set] does. *)
Theorem C8_ttl_sweep_quiescence w h now :
  reachable w ->
  expirationInterval (fst w) = Some h ->
  let w' := fire h now w in
  Timers.running h (snd w) = true /\
  w' = callback now w /\
  (expirationTimes (fst w') = [] ->
     expirationInterval (fst w') = None /\
     Timers.active (snd w') = [] /\
     (forall h' now', fire h' now' w' = w') /\
     (forall os, forallb (fun o => negb (is_set o)) os = true ->
        expirationInterval (fst (run os w')) = None /\
        Timers.active (snd (run os w')) = []) /\
     (forall key data ttl now',
        exists h2,
          expirationInterval (fst (set key data ttl now' w')) = Some h2 /\
          Timers.active (snd (set key data ttl now' w')) = [h2])).
Proof.
  intros Hw%ttl_reachable_wf Hh w'.
  pose proof Hw as [_ _ Ht Hi]. rewrite Hh in Ht.
  assert (Hrun : Timers.running h (snd w) = true).
  { unfold Timers.running. rewrite Ht. apply bool_decide_eq_true.
    by apply list_elem_of_singleton. }
  assert (Hw' : w' = callback now w) by (unfold w', fire; by rewrite Hrun).
  split; [done|]. split; [done|]. intros Hempty.
  assert (Hquiet : expirationInterval (fst w') = None /\ Timers.active (snd w') = []).
  { pose proof (ttl_callback_wf now w Hw) as [_ _ Ht' _]. rewrite <- Hw' in Ht'.
    rewrite Hw' in Hempty |- *. unfold callback in *.
    destruct (_ =? 0) eqn:E; simpl in *.
    - split; [done|]. rewrite ttl_sweep_handle, Hh. simpl. rewrite Ht.
      rewrite filter_cons, decide_False by (intros ?; done). done.
    - rewrite Hempty in E. discriminate. }
  destruct Hquiet as [Hnone Hact].
  split; [done|]. split; [done|]. split; [|split].
  - intros h' now'. unfold fire, Timers.running. rewrite Hact.
    by rewrite bool_decide_eq_false_2 by apply not_elem_of_nil.
  - intros os Hos. by apply ttl_quiet_run.
  - intros key data ttl now'. eexists. apply ttl_set_rearms; [done | done |].
    rewrite Hw'. unfold callback. destruct (_ =? 0); simpl;
      rewrite ttl_sweep_interval; apply Hi; by rewrite Hh.
Qed.

Lemma C8_ttl_sweep_quiescence_witness :
  let w := step (OSet (VStr "k") (VStr "v") (Some 5) 100) (constructor (Some 50) Timers.empty) in
  let w' := fire 1%positive 150 w in
  (reachable w /\ expirationInterval (fst w) = Some 1%positive) /\
  expirationTimes (fst w') = [] /\
  expirationInterval (fst w') = None /\ Timers.active (snd w') = [].
Proof.
  assert (Hw : reachable (step (OSet (VStr "k") (VStr "v") (Some 5) 100)
                            (constructor (Some 50) Timers.empty))).
  { apply reach_step, reach_new. }
  split; [split; [exact Hw | reflexivity]|].
  destruct (C8_ttl_sweep_quiescence _ 1%positive 150 Hw eq_refl) as (_ & _ & H).
  split; [reflexivity|].
  destruct (H eq_refl) as (H1 & H2 & _). split; [exact H1 | exact H2].
Defined.

End TTLSweep.

(** * REDISCache *)

Section RedisFacts.
Import REDISCache.
Context {V R exn : Type}.
Implicit Types (c : REDISCache.t V R exn) (key : string).

(** The shape shared by the methods: the whole body under [try], and a
    handler that prints the error and returns the neutral result. *)
Lemma redis_try_catch_fail_soft {A} (body : M (R:=R) (exn:=exn) A) (neutral : A) :
  fail_soft body
    (try_catch body (fun error => bind (console_error error) (fun _ => ret neutral)))
    neutral.
Proof. intros s. unfold try_catch. by destruct (body s) as [[e|a] s']. Qed.

Lemma redis_fail_soft_never_throws {A} (body op : M (R:=R) (exn:=exn) A) neutral :
  fail_soft body op neutral -> never_throws op.
Proof.
  intros H s. specialize (H s). destruct (body s) as [[e|a] s']; eauto.
Qed.

Lemma redis_clear_fail_soft c : fail_soft (clear_body c) (clear c) tt.
Proof. intros s. unfold clear, try_catch. by destruct (clear_body c s) as [[e|a] s']. Qed.

(** A rejected [redis.get] and a payload that does not parse both end in
    [undefined], with the error printed. *)
Lemma redis_get_rejected c key r log e r' :
  redis_get (redis c) (raw_key c key) r = (inl e, r') ->
  get c key (r, log) = (inr None, (r', log ++ [e])).
Proof.
  intros H. unfold get, try_catch, get_body, bind, await. simpl. by rewrite H.
Qed.

Lemma redis_get_unparsable c key r log payload e r' :
  redis_get (redis c) (raw_key c key) r = (inr (Some payload), r') ->
  payload <> ""%string ->
  JSON_parse (JSON c) payload = inl e ->
  get c key (r, log) = (inr None, (r', log ++ [e])).
Proof.
  intros H Hne Hp. unfold get, try_catch, get_body, bind, await, eval, present.
  simpl. rewrite H. rewrite bool_decide_eq_false_2 by done. by rewrite Hp.
Qed.

End RedisFacts.

(** C9: each of [get], [set], [delete], [has], [values], [clear] and [size]
    is fail-soft: whatever the client and [JSON] do, the method does not
    reject; where a call inside it fails with an error, the method prints
    that error and returns its neutral result ([undefined], [false],
    [false], [false], the empty array, nothing, [0]). *)
Theorem C9_redis_fail_soft {V R exn : Type} (c : REDISCache.t V R exn)
    (key : string) (value : V) (ttl : option Z) :
  (REDISCache.fail_soft (REDISCache.get_body c key) (REDISCache.get c key) None /\
   REDISCache.fail_soft (REDISCache.set_body c key value (default 0 ttl))
     (REDISCache.set c key value ttl) false /\
   REDISCache.fail_soft (REDISCache.delete_body c key) (REDISCache.delete c key) false /\
   REDISCache.fail_soft (REDISCache.has_body c key) (REDISCache.has c key) false /\
   REDISCache.fail_soft (REDISCache.values_body c) (REDISCache.values c) [] /\
   REDISCache.fail_soft (REDISCache.clear_body c) (REDISCache.clear c) tt /\
   REDISCache.fail_soft (REDISCache.size_body c) (REDISCache.size c) 0) /\
  (REDISCache.never_throws (REDISCache.get c key) /\
   REDISCache.never_throws (REDISCache.set c key value ttl) /\
   REDISCache.never_throws (REDISCache.delete c key) /\
   REDISCache.never_throws (REDISCache.has c key) /\
   REDISCache.never_throws (REDISCache.values c) /\
   REDISCache.never_throws (REDISCache.clear c) /\
   REDISCache.never_throws (REDISCache.size c)).
Proof.
  assert (H : REDISCache.fail_soft (REDISCache.get_body c key) (REDISCache.get c key) None /\
   REDISCache.fail_soft (REDISCache.set_body c key value (default 0 ttl))
     (REDISCache.set c key value ttl) false /\
   REDISCache.fail_soft (REDISCache.delete_body c key) (REDISCache.delete c key) false /\
   REDISCache.fail_soft (REDISCache.has_body c key) (REDISCache.has c key) false /\
   REDISCache.fail_soft (REDISCache.values_body c) (REDISCache.values c) [] /\
   REDISCache.fail_soft (REDISCache.clear_body c) (REDISCache.clear c) tt /\
   REDISCache.fail_soft (REDISCache.size_body c) (REDISCache.size c) 0).
  { repeat apply conj; first [apply redis_try_catch_fail_soft | apply redis_clear_fail_soft]. }
  split; [exact H|].
  destruct H as (H1 & H2 & H3 & H4 & H5 & H6 & H7).
  repeat split; eapply redis_fail_soft_never_throws; eassumption.
Qed.

(** The facade over the test double: a round trip, an unreachable store, and a
    namespace holding one payload that does not parse. *)

Example redis_round_trip :
  let s0 := ({| FlakyStore.entries := []; FlakyStore.down := false |}, []) in
  let s1 := snd (REDISCache.set FlakyStore.cache "k" true (Some 60) s0) in
  fst (REDISCache.get FlakyStore.cache "k" s1) = inr (Some true) /\
  fst (REDISCache.has FlakyStore.cache "k" s1) = inr true /\
  fst (REDISCache.size FlakyStore.cache s1) = inr 1 /\
  fst (REDISCache.values FlakyStore.cache s1) = inr [true] /\
  fst (REDISCache.delete FlakyStore.cache "k" s1) = inr true.
Proof. vm_compute. repeat split. Qed.

Example redis_store_down :
  let s0 := ({| FlakyStore.entries := [("app:k", "true")]; FlakyStore.down := true |}, [])%string in
  REDISCache.get FlakyStore.cache "k" s0 = (inr None, (fst s0, [FlakyStore.ConnectionLost])) /\
  REDISCache.set FlakyStore.cache "k" true None s0
    = (inr false, (fst s0, [FlakyStore.ConnectionLost])) /\
  REDISCache.delete FlakyStore.cache "k" s0
    = (inr false, (fst s0, [FlakyStore.ConnectionLost])) /\
  REDISCache.has FlakyStore.cache "k" s0
    = (inr false, (fst s0, [FlakyStore.ConnectionLost])) /\
  REDISCache.values FlakyStore.cache s0 = (inr [], (fst s0, [FlakyStore.ConnectionLost])) /\
  REDISCache.clear FlakyStore.cache s0 = (inr tt, (fst s0, [FlakyStore.ConnectionLost])) /\
  REDISCache.size FlakyStore.cache s0 = (inr 0, (fst s0, [FlakyStore.ConnectionLost])).
Proof. vm_compute. repeat split. Qed.

Example redis_values_unparsable_entry :
  let s0 := ({| FlakyStore.entries := [("app:a", "true"); ("app:b", "{"); ("other:c", "false")];
                FlakyStore.down := false |}, [])%string in
  REDISCache.values FlakyStore.cache s0 = (inr [], (fst s0, [FlakyStore.SyntaxError])) /\
  fst (REDISCache.size FlakyStore.cache s0) = inr 2.
Proof. vm_compute. repeat split. Qed.

(** * Further properties of LRUCache *)

Section LRUMore.
Implicit Types (c : LRUCache.t) (key k : value).

Lemma map_length_delete_present {A} (m : JsMap.t A) key :
  key ∈ JsMap.keys m -> (length (JsMap.delete key m) < length m)%nat.
Proof.
  induction m as [|[k a] m IH]; simpl.
  - intros H. by apply elem_of_nil in H.
  - intros H. destruct (decide (key = k)) as [->|Hne]; simpl.
    + pose proof (map_length_delete m k). lia.
    + apply elem_of_cons in H as [?|H]; [done|]. specialize (IH H). lia.
Qed.

Lemma map_length_delete_NoDup {A} (m : JsMap.t A) key :
  NoDup (JsMap.keys m) -> key ∈ JsMap.keys m ->
  S (length (JsMap.delete key m)) = length m.
Proof.
  induction m as [|[k a] m IH]; simpl.
  - intros _ H. by apply elem_of_nil in H.
  - intros [Hk Hnd]%NoDup_cons H. destruct (decide (key = k)) as [->|Hne]; simpl.
    + rewrite map_delete_absent; [done | by apply map_get_None].
    + apply elem_of_cons in H as [?|H]; [done|]. by rewrite IH.
Qed.

Lemma map_length_set_present {A} (m : JsMap.t A) key a :
  key ∈ JsMap.keys m -> length (JsMap.set key a m) = length m.
Proof.
  intros H. rewrite <- (length_map fst (JsMap.set key a m)), <- (length_map fst m).
  change (map fst ?x) with (JsMap.keys x). by rewrite map_keys_set_present.
Qed.

Lemma map_length_set_absent {A} (m : JsMap.t A) key a :
  key ∉ JsMap.keys m -> length (JsMap.set key a m) = S (length m).
Proof.
  intros H. rewrite map_set_absent by (by apply map_get_None).
  rewrite length_app. simpl. lia.
Qed.

Lemma lru_store_get key c :
  LRUCache.store (snd (LRUCache.get key c))
  = if truthy (LRUCache.super_get key c)
    then JsMap.set key (LRUCache.super_get key c) (JsMap.delete key (LRUCache.store c))
    else LRUCache.store c.
Proof. unfold LRUCache.get. by destruct (truthy _). Qed.

Lemma lru_super_get_truthy key c :
  truthy (LRUCache.super_get key c) = true ->
  JsMap.get key (LRUCache.store c) = Some (LRUCache.super_get key c).
Proof.
  unfold LRUCache.super_get. destruct (JsMap.get key (LRUCache.store c)); [done|].
  simpl. discriminate.
Qed.

Lemma lru_step_capacity o c :
  LRUCache.capacity (LRUCache.step o c) = LRUCache.capacity c.
Proof.
  destruct o; simpl; try done. unfold LRUCache.get. by destruct (negb _).
Qed.

Lemma lru_step_NoDup o c :
  NoDup (LRUCache.keys c) -> NoDup (LRUCache.keys (LRUCache.step o c)).
Proof.
  unfold LRUCache.keys. intros H. destruct o as [key v|key|key|]; simpl.
  - apply map_NoDup_set.
    destruct (_ >=? _); [|done]. destruct (truthy _); [|done].
    by apply map_NoDup_delete.
  - rewrite lru_store_get. destruct (truthy _); [|done].
    by apply map_NoDup_set, map_NoDup_delete.
  - by apply map_NoDup_delete.
  - apply NoDup_nil_2.
Qed.

Lemma lru_run_snoc os o c :
  LRUCache.run (os ++ [o]) c = LRUCache.step o (LRUCache.run os c).
Proof. unfold LRUCache.run. by rewrite fold_left_app. Qed.

(** X1: whatever calls follow the construction, the keys of the cache are
    pairwise distinct and its capacity is the one it was constructed with
    (100 when none was given). *)
Theorem X1_lru_run_invariant (capacity : option Z) (os : list LRUCache.op) :
  let c := LRUCache.run os (LRUCache.constructor capacity) in
  NoDup (LRUCache.keys c) /\ LRUCache.capacity c = default 100 capacity.
Proof.
  induction os as [|o os IH] using rev_ind; simpl.
  - split; [apply NoDup_nil_2 | done].
  - rewrite lru_run_snoc. destruct IH as [H1 H2].
    split; [by apply lru_step_NoDup | by rewrite lru_step_capacity].
Qed.

Lemma lru_step_keys_truthy o c :
  match o with LRUCache.OSet key _ => truthy key = true | _ => True end ->
  Forall (fun k => truthy k = true) (LRUCache.keys c) ->
  Forall (fun k => truthy k = true) (LRUCache.keys (LRUCache.step o c)).
Proof.
  intros Ho Hc. destruct o as [key v|key|key|]; simpl.
  - by apply lru_keys_set_truthy.
  - unfold LRUCache.keys in *. rewrite lru_store_get.
    destruct (truthy _) eqn:Ht; [|done]. apply lru_super_get_truthy in Ht.
    rewrite Forall_forall in *. intros k Hk.
    apply map_keys_set_elem in Hk as [->|Hk].
    + apply Hc. destruct (decide (key ∈ JsMap.keys (LRUCache.store c))) as [|Hn]; [done|].
      apply map_get_None in Hn. congruence.
    + rewrite map_keys_delete in Hk. apply list_elem_of_filter in Hk as [_ ?]. by apply Hc.
  - unfold LRUCache.keys in *. simpl. rewrite map_keys_delete.
    rewrite Forall_forall in *. intros k [_ ?]%list_elem_of_filter. by apply Hc.
  - apply Forall_nil_2.
Qed.

Lemma lru_step_size_bound o c :
  1 <= LRUCache.capacity c ->
  match o with LRUCache.OSet key _ => truthy key = true | _ => True end ->
  Forall (fun k => truthy k = true) (LRUCache.keys c) ->
  LRUCache.size c <= LRUCache.capacity c ->
  LRUCache.size (LRUCache.step o c) <= LRUCache.capacity c.
Proof.
  intros Hcap Ho Hkeys Hsize. destruct o as [key v|key|key|]; simpl.
  - by apply lru_set_bound_truthy.
  - unfold LRUCache.size, JsMap.size in *. rewrite lru_store_get.
    destruct (truthy _) eqn:Ht; [|done]. apply lru_super_get_truthy in Ht.
    assert (Hin : key ∈ JsMap.keys (LRUCache.store c)).
    { destruct (decide (key ∈ JsMap.keys (LRUCache.store c))) as [|Hn]; [done|].
      apply map_get_None in Hn. congruence. }
    pose proof (map_length_delete_present (LRUCache.store c) key Hin).
    pose proof (map_length_set (JsMap.delete key (LRUCache.store c)) key
                  (LRUCache.super_get key c)).
    lia.
  - unfold LRUCache.size, JsMap.size in *. simpl.
    pose proof (map_length_delete (LRUCache.store c) key). lia.
  - unfold LRUCache.size, JsMap.size. simpl. lia.
Qed.

(** X2: a cache constructed with a capacity of at least one never holds more
    entries than its capacity, whatever calls of [set], [get], [delete] and
    [clear] follow, as long as no [set] is given a falsy key. *)
Theorem X2_lru_run_capacity_bound (capacity : Z) (os : list LRUCache.op) :
  1 <= capacity ->
  LRUCache.truthy_keys os = true ->
  LRUCache.size (LRUCache.run os (LRUCache.constructor (Some capacity))) <= capacity.
Proof.
  intros Hcap.
  assert (G : LRUCache.truthy_keys os = true ->
    let c := LRUCache.run os (LRUCache.constructor (Some capacity)) in
    LRUCache.capacity c = capacity /\
    Forall (fun k => truthy k = true) (LRUCache.keys c) /\
    LRUCache.size c <= capacity).
  { induction os as [|o os IH] using rev_ind; intros Hos; simpl.
    - split; [done|]. split; [apply Forall_nil_2|].
      unfold LRUCache.size, JsMap.size. simpl. lia.
    - unfold LRUCache.truthy_keys in Hos. rewrite forallb_app in Hos.
      apply andb_true_iff in Hos as [Hos Ho]. simpl in Ho. rewrite andb_true_r in Ho.
      destruct (IH Hos) as (Hc & Hk & Hs). rewrite lru_run_snoc.
      assert (Ho' : match o with LRUCache.OSet key _ => truthy key = true | _ => True end)
        by (by destruct o).
      split; [by rewrite lru_step_capacity|]. split; [by apply lru_step_keys_truthy|].
      pose proof (lru_step_size_bound o
        (LRUCache.run os (LRUCache.constructor (Some capacity)))) as B.
      rewrite Hc in B. by apply B. }
  intros Hos. by apply G.
Qed.

Lemma X2_lru_run_capacity_bound_witness :
  let os := [LRUCache.OSet (VStr "a") (VNum 1); LRUCache.OSet (VStr "b") (VNum 2);
             LRUCache.OGet (VStr "a"); LRUCache.OSet (VStr "c") (VNum 3);
             LRUCache.ODelete (VStr "a"); LRUCache.OSet (VStr "d") (VNum 0)] in
  (1 <= 2 /\ LRUCache.truthy_keys os = true) /\
  LRUCache.size (LRUCache.run os (LRUCache.constructor (Some 2))) <= 2.
Proof.
  split; [split; [lia | reflexivity]|].
  apply X2_lru_run_capacity_bound; [lia | reflexivity].
Defined.

(** X3: on a cache of capacity [n >= 1] filled by [n] sets of distinct keys,
    the first of them truthy, the set of one more fresh key evicts exactly the
    oldest entry: the others stay, in their order, followed by the new one. *)
Theorem X3_lru_evicts_oldest (k1 v1 : value) (rest : list (value * value))
    (knew vnew : value) :
  let kvs := (k1, v1) :: rest in
  NoDup (JsMap.keys kvs ++ [knew]) ->
  truthy k1 = true ->
  LRUCache.store
    (LRUCache.set_all (kvs ++ [(knew, vnew)])
       (LRUCache.constructor (Some (Z.of_nat (length kvs)))))
  = rest ++ [(knew, vnew)].
Proof.
  intros kvs Hnd Hk1. unfold LRUCache.set_all at 1. rewrite fold_left_app.
  change (fold_left _ kvs ?x) with (LRUCache.set_all kvs x).
  assert (Hnd' : NoDup (JsMap.keys kvs)) by (by apply NoDup_app in Hnd as (? & _ & _)).
  rewrite (lru_set_all_fill kvs);
    [| exact Hnd' | unfold LRUCache.size, JsMap.size; simpl; lia].
  assert (Hnew : knew ∉ JsMap.keys kvs).
  { apply NoDup_app in Hnd as (_ & Hd & _). intros Hin.
    apply (Hd knew Hin). by apply list_elem_of_singleton. }
  simpl in Hnd', Hnew. apply NoDup_cons in Hnd' as [Hk1r _].
  apply not_elem_of_cons in Hnew as [Hn1 Hnr].
  simpl fold_left. rewrite lru_set_full.
  - simpl. unfold JsMap.first_key. simpl. rewrite decide_True by done.
    rewrite map_delete_absent by (by apply map_get_None).
    by apply map_set_absent, map_get_None.
  - unfold LRUCache.size, JsMap.size, kvs. simpl. lia.
  - done.
Qed.

Lemma X3_lru_evicts_oldest_witness :
  let kvs := [(VStr "k1", VNum 1); (VStr "k2", VNum 2)] in
  (NoDup (JsMap.keys kvs ++ [VStr "k3"]) /\ truthy (VStr "k1") = true) /\
  LRUCache.store
    (LRUCache.set_all (kvs ++ [(VStr "k3", VNum 3)]) (LRUCache.constructor (Some 2)))
  = [(VStr "k2", VNum 2); (VStr "k3", VNum 3)].
Proof.
  assert (Hnd : NoDup (JsMap.keys [(VStr "k1", VNum 1); (VStr "k2", VNum 2)]
                       ++ [VStr "k3"])).
  { apply (bool_decide_unpack _). vm_compute. exact I. }
  split; [split; [exact Hnd | reflexivity]|].
  apply (X3_lru_evicts_oldest (VStr "k1") (VNum 1) [(VStr "k2", VNum 2)]
           (VStr "k3") (VNum 3) Hnd). reflexivity.
Defined.

(** X4: a key that was just set is present, whatever the cache held; [get]
    returns the value just set when it is truthy and [undefined] when it is
    falsy. *)
Theorem X4_lru_set_then_get (key v : value) (c : LRUCache.t) :
  let c' := LRUCache.set key v c in
  LRUCache.has key c' = true /\
  fst (LRUCache.get key c') = (if truthy v then v else VUndefined).
Proof.
  simpl. assert (H : JsMap.get key (LRUCache.store (LRUCache.set key v c)) = Some v)
    by apply map_get_set_eq.
  split.
  - unfold LRUCache.has, JsMap.has. by rewrite H.
  - unfold LRUCache.get, LRUCache.super_get. rewrite H. simpl. by destruct (truthy v).
Qed.

(** X5: [get] never changes what the cache holds: every key has the same value
    before and after, the number of entries and the capacity are the same, and
    a key that is absent yields [undefined] with the cache untouched. *)
Theorem X5_lru_get_keeps_contents (c : LRUCache.t) (key k : value) :
  NoDup (LRUCache.keys c) ->
  let c' := snd (LRUCache.get key c) in
  JsMap.get k (LRUCache.store c') = JsMap.get k (LRUCache.store c) /\
  LRUCache.size c' = LRUCache.size c /\
  LRUCache.capacity c' = LRUCache.capacity c /\
  (LRUCache.has key c = false -> LRUCache.get key c = (VUndefined, c)).
Proof.
  intros Hnd c'. unfold c'. repeat split.
  - rewrite lru_store_get. destruct (truthy _) eqn:Ht; [|done].
    apply lru_super_get_truthy in Ht. destruct (decide (k = key)) as [->|Hne].
    + by rewrite map_get_set_eq.
    + by rewrite map_get_set_ne, map_get_delete_ne.
  - unfold LRUCache.size, JsMap.size. rewrite lru_store_get.
    destruct (truthy _) eqn:Ht; [|done]. apply lru_super_get_truthy in Ht.
    assert (Hin : key ∈ JsMap.keys (LRUCache.store c)).
    { destruct (decide (key ∈ JsMap.keys (LRUCache.store c))) as [|Hn]; [done|].
      apply map_get_None in Hn. congruence. }
    rewrite map_length_set_absent.
    + by rewrite (map_length_delete_NoDup _ _ Hnd Hin).
    + apply map_get_None, map_get_delete_eq.
  - unfold LRUCache.get. by destruct (negb _).
  - intros H. apply map_has_false in H.
    unfold LRUCache.get, LRUCache.super_get. by rewrite H.
Qed.

Lemma X5_lru_get_keeps_contents_witness :
  let c := LRUCache.set_all [(VStr "a", VNum 1); (VStr "b", VNum 2)]
             (LRUCache.constructor None) in
  NoDup (LRUCache.keys c) /\
  JsMap.get (VStr "b") (LRUCache.store (snd (LRUCache.get (VStr "a") c))) = Some (VNum 2) /\
  LRUCache.size (snd (LRUCache.get (VStr "a") c)) = 2.
Proof.
  assert (Hnd : NoDup (LRUCache.keys
            (LRUCache.set_all [(VStr "a", VNum 1); (VStr "b", VNum 2)]
               (LRUCache.constructor None)))).
  { apply (bool_decide_unpack _). vm_compute. exact I. }
  split; [exact Hnd|].
  destruct (X5_lru_get_keeps_contents _ (VStr "a") (VStr "b") Hnd) as (H1 & H2 & _).
  split; [exact H1 | exact H2].
Defined.

(** X6: the only entry a [set] can remove is the first key of a cache that is
    at or above its capacity, and only when that key is truthy and is not the
    key being set. *)
Theorem X6_lru_set_removes_only_first (key v k : value) (c : LRUCache.t) :
  LRUCache.has k c = true ->
  LRUCache.has k (LRUCache.set key v c) = false ->
  k = JsMap.first_key (LRUCache.store c) /\
  LRUCache.capacity c <= LRUCache.size c /\
  truthy k = true /\
  k <> key.
Proof.
  unfold LRUCache.has. intros Hin Hout.
  apply map_has_true in Hin. apply map_has_false, map_get_None in Hout.
  unfold LRUCache.set in Hout. simpl in Hout.
  rewrite map_keys_set_elem in Hout.
  assert (Hne : k <> key) by (intros ->; apply Hout; by left).
  assert (Hs1 : k ∉ JsMap.keys
            (if JsMap.size (LRUCache.store c) >=? LRUCache.capacity c
             then if truthy (JsMap.first_key (LRUCache.store c))
                  then JsMap.delete (JsMap.first_key (LRUCache.store c)) (LRUCache.store c)
                  else LRUCache.store c
             else LRUCache.store c)) by (intros ?; apply Hout; by right).
  clear Hout. unfold LRUCache.size.
  destruct (Z.geb_spec (JsMap.size (LRUCache.store c)) (LRUCache.capacity c)) as [Hge|];
    [|done].
  destruct (truthy (JsMap.first_key (LRUCache.store c))) eqn:Ht; [|done].
  rewrite map_keys_delete, list_elem_of_filter in Hs1.
  destruct (decide (k = JsMap.first_key (LRUCache.store c))) as [->|Hk].
  - repeat split; [lia | done | done].
  - destruct Hs1. by split.
Qed.

Lemma X6_lru_set_removes_only_first_witness :
  let c := LRUCache.set_all [(VStr "a", VNum 1); (VStr "b", VNum 2)]
             (LRUCache.constructor (Some 2)) in
  (LRUCache.has (VStr "a") c = true /\
   LRUCache.has (VStr "a") (LRUCache.set (VStr "c") (VNum 3) c) = false) /\
  VStr "a" = JsMap.first_key (LRUCache.store c).
Proof.
  split; [split; reflexivity|].
  apply (X6_lru_set_removes_only_first (VStr "c") (VNum 3) (VStr "a")
           (LRUCache.set_all [(VStr "a", VNum 1); (VStr "b", VNum 2)]
              (LRUCache.constructor (Some 2)))); reflexivity.
Defined.

Lemma lru_set_all_snoc kvs k v c :
  LRUCache.set_all (kvs ++ [(k, v)]) c = LRUCache.set k v (LRUCache.set_all kvs c).
Proof. unfold LRUCache.set_all. by rewrite fold_left_app. Qed.

(** X7: a cache constructed with a capacity of zero or less keeps exactly the
    entry of the last [set]: the one before it, its key being truthy, is
    evicted every time. *)
Theorem X7_lru_nonpositive_capacity (capacity : Z) (kvs : list (value * value))
    (k v : value) :
  capacity <= 0 ->
  Forall (fun k => truthy k = true) (JsMap.keys kvs) ->
  LRUCache.store (LRUCache.set_all (kvs ++ [(k, v)]) (LRUCache.constructor (Some capacity)))
  = [(k, v)].
Proof.
  intros Hcap. revert k v. induction kvs as [|[k0 v0] kvs IH] using rev_ind; intros k v Hall.
  - unfold LRUCache.set_all, LRUCache.set. simpl.
    destruct (Z.geb_spec (JsMap.size (@nil (value * value))) capacity) as [|Hlt]; [done|].
    unfold JsMap.size in Hlt. simpl in Hlt. lia.
  - unfold JsMap.keys in Hall. rewrite map_app in Hall.
    apply Forall_app in Hall as [Hall Hk0]. apply Forall_cons in Hk0 as [Hk0 _].
    simpl in Hk0. rewrite lru_set_all_snoc.
    specialize (IH k0 v0 Hall).
    rewrite lru_set_full.
    + rewrite IH. unfold JsMap.first_key. simpl. by rewrite !decide_True by done.
    + assert (Hc : LRUCache.capacity
        (LRUCache.set_all (kvs ++ [(k0, v0)]) (LRUCache.constructor (Some capacity)))
        = capacity).
      { generalize (kvs ++ [(k0, v0)]). intros l.
        induction l as [|x l IHl] using rev_ind; [done|].
        destruct x. by rewrite lru_set_all_snoc, lru_capacity_set. }
      rewrite Hc. unfold LRUCache.size, JsMap.size. rewrite IH. simpl. lia.
    + rewrite IH. done.
Qed.

Lemma X7_lru_nonpositive_capacity_witness :
  (0 <= 0 /\ Forall (fun k => truthy k = true) (JsMap.keys [(VStr "a", VNum 1)])) /\
  LRUCache.store
    (LRUCache.set_all ([(VStr "a", VNum 1)] ++ [(VStr "b", VNum 2)])
       (LRUCache.constructor (Some 0)))
  = [(VStr "b", VNum 2)].
Proof.
  assert (H : Forall (fun k => truthy k = true) (JsMap.keys [(VStr "a", VNum 1)])).
  { apply Forall_cons. split; [reflexivity | apply Forall_nil_2]. }
  split; [split; [lia | exact H]|].
  apply (X7_lru_nonpositive_capacity 0 [(VStr "a", VNum 1)] (VStr "b") (VNum 2)); [lia | exact H].
Defined.

(** X8: on a cache at or above its capacity, a [set] of a key that is present
    behind a truthy first key overwrites the value where it stands and still
    evicts the first key: the cache ends one entry smaller. *)
Theorem X8_lru_update_when_full_evicts (c : LRUCache.t) (k0 v0 : value)
    (m : JsMap.t value) (key v : value) :
  LRUCache.store c = (k0, v0) :: m ->
  LRUCache.capacity c <= LRUCache.size c ->
  truthy k0 = true ->
  k0 ∉ JsMap.keys m ->
  key ∈ JsMap.keys m ->
  LRUCache.store (LRUCache.set key v c) = JsMap.set key v m /\
  LRUCache.keys (LRUCache.set key v c) = JsMap.keys m /\
  LRUCache.size (LRUCache.set key v c) = LRUCache.size c - 1 /\
  LRUCache.has k0 (LRUCache.set key v c) = false.
Proof.
  intros Hs Hfull Hk0 Hk0m Hkey.
  assert (Hstore : LRUCache.store (LRUCache.set key v c) = JsMap.set key v m).
  { rewrite lru_set_full; rewrite ?Hs; try done.
    unfold JsMap.first_key. simpl. rewrite decide_True by done.
    by rewrite map_delete_absent by (by apply map_get_None). }
  assert (Hkeys : LRUCache.keys (LRUCache.set key v c) = JsMap.keys m).
  { unfold LRUCache.keys. rewrite Hstore. by apply map_keys_set_present. }
  split; [done|]. split; [done|]. split.
  - unfold LRUCache.size, JsMap.size. rewrite Hstore, Hs.
    rewrite map_length_set_present by done. simpl length. lia.
  - unfold LRUCache.has. apply map_has_false, map_get_None.
    unfold LRUCache.keys in Hkeys. by rewrite Hkeys.
Qed.

Lemma X8_lru_update_when_full_evicts_witness :
  let c := LRUCache.set_all [(VStr "a", VNum 1); (VStr "b", VNum 2)]
             (LRUCache.constructor (Some 2)) in
  (LRUCache.store c = (VStr "a", VNum 1) :: [(VStr "b", VNum 2)] /\
   LRUCache.capacity c <= LRUCache.size c) /\
  LRUCache.store (LRUCache.set (VStr "b") (VNum 3) c) = [(VStr "b", VNum 3)].
Proof.
  split; [split; [reflexivity | vm_compute; discriminate]|].
  refine (proj1 (X8_lru_update_when_full_evicts
           (LRUCache.set_all [(VStr "a", VNum 1); (VStr "b", VNum 2)]
              (LRUCache.constructor (Some 2)))
           (VStr "a") (VNum 1) [(VStr "b", VNum 2)] (VStr "b") (VNum 3)
           eq_refl _ eq_refl _ _)).
  - vm_compute. discriminate.
  - apply (bool_decide_unpack _). vm_compute. exact I.
  - apply (bool_decide_unpack _). vm_compute. exact I.
Defined.

End LRUMore.

(** * Further properties of TTLCache *)

Section TTLMore.
Import TTLCache.
Implicit Types (c : TTLCache.t) (w : world) (key k : value).

(** What a scan over the entries [l] leaves of a key: it is gone from both
    maps when some entry of [l] under that key has passed, untouched
    otherwise. *)
Lemma ttl_scan_lookup now (l : JsMap.t Z) c k :
  let c' := fold_left
              (fun c entry => if now >? snd entry then expire (fst entry) c else c) l c in
  let gone := existsb (fun entry => bool_decide (fst entry = k) && (now >? snd entry)) l in
  JsMap.get k (expirationTimes c')
    = (if gone then None else JsMap.get k (expirationTimes c)) /\
  JsMap.get k (store c') = (if gone then None else JsMap.get k (store c)).
Proof.
  revert c. induction l as [|[k0 e0] l IH]; intros c; simpl; [done|].
  destruct (IH (if now >? e0 then expire k0 c else c)) as [IH1 IH2].
  rewrite IH1, IH2. clear IH IH1 IH2.
  destruct (existsb _ l); [by rewrite orb_true_r|]. rewrite orb_false_r.
  destruct (now >? e0); simpl; [|by rewrite andb_false_r].
  rewrite andb_true_r. destruct (decide (k0 = k)) as [->|Hne].
  - rewrite bool_decide_eq_true_2 by done. by rewrite !map_get_delete_eq.
  - rewrite bool_decide_eq_false_2 by done.
    by rewrite !map_get_delete_ne by (intros ?; by apply Hne).
Qed.

Lemma ttl_gone_lookup now (l : JsMap.t Z) k :
  NoDup (JsMap.keys l) ->
  existsb (fun entry => bool_decide (fst entry = k) && (now >? snd entry)) l
  = match JsMap.get k l with Some e => now >? e | None => false end.
Proof.
  induction l as [|[k0 e0] l IH]; simpl; [done|].
  intros [Hk0 Hnd]%NoDup_cons. rewrite (IH Hnd).
  destruct (decide (k = k0)) as [->|Hne].
  - rewrite bool_decide_eq_true_2 by done.
    apply map_get_None in Hk0. rewrite Hk0. simpl. by rewrite orb_false_r.
  - rewrite bool_decide_eq_false_2 by (intros ?; by apply Hne). done.
Qed.

Lemma ttl_sweep_lookup now c k :
  NoDup (JsMap.keys (expirationTimes c)) ->
  JsMap.get k (expirationTimes (sweep now c))
    = match JsMap.get k (expirationTimes c) with
      | Some e => if now >? e then None else Some e
      | None => None
      end /\
  JsMap.get k (store (sweep now c))
    = match JsMap.get k (expirationTimes c) with
      | Some e => if now >? e then None else JsMap.get k (store c)
      | None => JsMap.get k (store c)
      end.
Proof.
  intros Hnd. unfold sweep.
  destruct (ttl_scan_lookup now (expirationTimes c) c k) as [H1 H2].
  simpl in H1, H2. rewrite H1, H2, (ttl_gone_lookup _ _ _ Hnd).
  destruct (JsMap.get k (expirationTimes c)) as [e|]; [|done]. by destruct (now >? e).
Qed.

Lemma ttl_wf_NoDup_index w : wf w -> NoDup (JsMap.keys (expirationTimes (fst w))).
Proof. intros [Hk Hn _ _]. by rewrite Hk. Qed.

(** X9: in every state a constructed cache can reach, the expiry index and
    the value store hold the same keys in the same order, and no key twice:
    every stored entry has an expiry and every expiry belongs to a stored
    entry. *)
Theorem X9_ttl_index_matches_store w :
  reachable w ->
  JsMap.keys (expirationTimes (fst w)) = JsMap.keys (store (fst w)) /\
  NoDup (JsMap.keys (store (fst w))) /\
  (forall key, JsMap.has key (expirationTimes (fst w)) = has key (fst w)).
Proof.
  intros [Hk Hn _ _]%ttl_reachable_wf. split; [done|]. split; [done|].
  intros key. unfold has. destruct (JsMap.has key (store (fst w))) eqn:E.
  - apply map_has_true. rewrite Hk. by apply map_has_true.
  - apply map_has_false, map_get_None. rewrite Hk.
    by apply map_get_None, map_has_false.
Qed.

Lemma X9_ttl_index_matches_store_witness :
  let w := run [OSet (VStr "a") (VNum 1) None 10; OSet (VStr "b") (VNum 2) (Some 5) 11;
                OGet (VStr "b") 20; OSet (VStr "a") (VNum 3) (Some 0) 21]
             (constructor (Some 100) Timers.empty) in
  reachable w /\
  JsMap.keys (expirationTimes (fst w)) = JsMap.keys (store (fst w)).
Proof.
  assert (Hw : reachable
    (run [OSet (VStr "a") (VNum 1) None 10; OSet (VStr "b") (VNum 2) (Some 5) 11;
          OGet (VStr "b") 20; OSet (VStr "a") (VNum 3) (Some 0) 21]
       (constructor (Some 100) Timers.empty))).
  { repeat apply reach_step. apply reach_new. }
  split; [exact Hw|]. exact (proj1 (X9_ttl_index_matches_store _ Hw)).
Defined.

(** X10: a cache never has more than one sweep timer registered; a timer
    runs exactly when the cache holds its handle; and under an interval of
    zero or less no timer is ever registered. *)
Theorem X10_ttl_single_timer w :
  reachable w ->
  (length (Timers.active (snd w)) <= 1)%nat /\
  (forall h, Timers.running h (snd w) = true <-> expirationInterval (fst w) = Some h) /\
  (interval (fst w) <= 0 -> Timers.active (snd w) = []).
Proof.
  intros [_ _ Ht Hi]%ttl_reachable_wf. unfold Timers.running. rewrite Ht.
  destruct (expirationInterval (fst w)) as [h0|].
  - split; [simpl; lia|]. split.
    + intros h. rewrite bool_decide_eq_true, list_elem_of_singleton.
      split; [by intros -> | by intros [= ->]].
    + intros Hle. assert (0 < interval (fst w)) by (apply Hi; by eexists). lia.
  - split; [simpl; lia|]. split; [|done].
    intros h. rewrite bool_decide_eq_true, elem_of_nil. split; [done | discriminate].
Qed.

Lemma X10_ttl_single_timer_witness :
  let w := run [OSet (VStr "a") (VNum 1) None 10; OSet (VStr "b") (VNum 2) (Some 5) 11]
             (constructor (Some 0) Timers.empty) in
  reachable w /\ Timers.active (snd w) = [].
Proof.
  assert (Hw : reachable
    (run [OSet (VStr "a") (VNum 1) None 10; OSet (VStr "b") (VNum 2) (Some 5) 11]
       (constructor (Some 0) Timers.empty))).
  { repeat apply reach_step. apply reach_new. }
  split; [exact Hw|].
  destruct (X10_ttl_single_timer _ Hw) as (_ & _ & H). apply H. vm_compute. discriminate.
Defined.

(** X11: constructing a cache registers no timer, whatever the interval; the
    first [set] registers one exactly when the interval is positive. *)
Theorem X11_ttl_timer_starts_with_first_set (interval0 : option Z) (rt : Timers.t)
    (key data : value) (ttl : option Z) (now : Z) :
  let w0 := constructor interval0 rt in
  snd w0 = rt /\
  expirationInterval (fst w0) = None /\
  Timers.active (snd (set key data ttl now w0))
  = (if default 0 interval0 >? 0 then Timers.active rt ++ [Timers.next rt]
     else Timers.active rt).
Proof.
  unfold constructor, set, startExpirationInterval. simpl.
  destruct (default 0 interval0 >? 0) eqn:E; simpl; rewrite ?E; simpl; done.
Qed.

(** X12: a tick of the sweep removes, from the value store and from the
    expiry index alike, exactly the keys whose expiry lies strictly before the
    instant of the tick; every other key keeps its value and its expiry. *)
Theorem X12_ttl_sweep_removes_exactly_expired w now k :
  reachable w ->
  let c := fst w in
  JsMap.get k (expirationTimes (sweep now c))
    = match JsMap.get k (expirationTimes c) with
      | Some e => if now >? e then None else Some e
      | None => None
      end /\
  JsMap.get k (store (sweep now c))
    = match JsMap.get k (expirationTimes c) with
      | Some e => if now >? e then None else JsMap.get k (store c)
      | None => JsMap.get k (store c)
      end.
Proof. intros Hw%ttl_reachable_wf. by apply ttl_sweep_lookup, ttl_wf_NoDup_index. Qed.

Lemma X12_ttl_sweep_removes_exactly_expired_witness :
  let w := run [OSet (VStr "a") (VNum 1) (Some 5) 10; OSet (VStr "b") (VNum 2) (Some 50) 10]
             (constructor (Some 100) Timers.empty) in
  reachable w /\
  JsMap.get (VStr "a") (store (sweep 20 (fst w))) = None /\
  JsMap.get (VStr "b") (store (sweep 20 (fst w))) = Some (VNum 2).
Proof.
  assert (Hw : reachable
    (run [OSet (VStr "a") (VNum 1) (Some 5) 10; OSet (VStr "b") (VNum 2) (Some 50) 10]
       (constructor (Some 100) Timers.empty))).
  { repeat apply reach_step. apply reach_new. }
  split; [exact Hw|]. split.
  - exact (proj2 (X12_ttl_sweep_removes_exactly_expired _ 20 (VStr "a") Hw)).
  - exact (proj2 (X12_ttl_sweep_removes_exactly_expired _ 20 (VStr "b") Hw)).
Defined.

Lemma ttl_set_armed key data ttl now w :
  0 < interval (fst w) ->
  is_Some (expirationInterval (fst (set key data ttl now w))).
Proof.
  intros Hi. unfold set, startExpirationInterval. simpl.
  destruct (expirationInterval (fst w)) as [h|] eqn:E.
  - rewrite bool_decide_eq_true_2 by (by eexists). simpl. rewrite ?E. by eexists.
  - rewrite bool_decide_eq_false_2 by (intros [? [=]]). simpl.
    assert (Hs : (JsMap.size (JsMap.set key (now + default (interval (fst w)) ttl)
                    (expirationTimes (fst w))) >? 0) = true).
    { unfold JsMap.size. destruct (expirationTimes (fst w)) as [|[k e] m]; simpl.
      - done.
      - destruct (decide (key = k)); simpl; apply Z.gtb_lt; lia. }
    rewrite Hs. simpl. destruct (Z.gtb_spec (interval (fst w)) 0); [|lia].
    simpl. by eexists.
Qed.

Lemma ttl_callback_store now w :
  store (fst (callback now w)) = store (sweep now (fst w)) /\
  expirationTimes (fst (callback now w)) = expirationTimes (sweep now (fst w)).
Proof. unfold callback. by destruct (_ =? 0). Qed.

(** X13: under a positive interval an entry needs no read to go away: after
    a [set], the cache holds the handle of a running timer, and a firing of
    that timer at any instant after the entry's expiry removes the key from
    the value store and from the expiry index. *)
Theorem X13_ttl_sweep_convergence w key data ttl s now :
  reachable w ->
  0 < interval (fst w) ->
  s + default (interval (fst w)) ttl < now ->
  let w1 := set key data ttl s w in
  exists h,
    expirationInterval (fst w1) = Some h /\
    Timers.running h (snd w1) = true /\
    has key (fst (fire h now w1)) = false /\
    JsMap.has key (expirationTimes (fst (fire h now w1))) = false.
Proof.
  intros Hw Hi Hlt w1.
  assert (Hw1 : wf w1).
  { apply ttl_reachable_wf. exact (reach_step (OSet key data ttl s) w Hw). }
  destruct (ttl_set_armed key data ttl s w Hi) as [h Hh]. fold w1 in Hh.
  exists h. split; [done|].
  assert (Hrun : Timers.running h (snd w1) = true).
  { unfold Timers.running. destruct Hw1 as [_ _ Ht _]. rewrite Ht, Hh.
    apply bool_decide_eq_true. by apply list_elem_of_singleton. }
  split; [done|]. unfold fire. rewrite Hrun.
  destruct (ttl_callback_store now w1) as [Hs He]. unfold has. rewrite Hs, He.
  destruct (ttl_sweep_lookup now (fst w1) key (ttl_wf_NoDup_index w1 Hw1)) as [H1 H2].
  assert (Hexp : JsMap.get key (expirationTimes (fst w1))
                 = Some (s + default (interval (fst w)) ttl)).
  { unfold w1. rewrite ttl_set_expirationTimes. apply map_get_set_eq. }
  rewrite Hexp in H1, H2.
  destruct (Z.gtb_spec now (s + default (interval (fst w)) ttl)); [|lia].
  split; by apply map_has_false.
Qed.

Lemma X13_ttl_sweep_convergence_witness :
  let w := constructor (Some 100) Timers.empty in
  let w1 := set (VStr "k") (VStr "v") (Some 30) 1000 w in
  (reachable w /\ 0 < interval (fst w) /\ 1000 + 30 < 1100) /\
  has (VStr "k") (fst (fire 1%positive 1100 w1)) = false.
Proof.
  split; [split; [apply reach_new | split; [reflexivity | lia]]|].
  destruct (X13_ttl_sweep_convergence (constructor (Some 100) Timers.empty)
              (VStr "k") (VStr "v") (Some 30) 1000 1100
              (reach_new (Some 100)) eq_refl eq_refl) as (h & Hh & _ & H & _).
  injection Hh as <-. exact H.
Defined.

(** X14: [get] of a key the cache does not hold returns [undefined] and
    changes nothing, at any instant. *)
Theorem X14_ttl_get_absent w key now :
  reachable w ->
  has key (fst w) = false ->
  get key now (fst w) = (VUndefined, fst w).
Proof.
  intros Hw%ttl_reachable_wf Hs. unfold has in Hs. apply map_has_false in Hs.
  assert (He : JsMap.get key (expirationTimes (fst w)) = None).
  { apply map_get_None. rewrite (ttl_wf_same_keys w key Hw). by apply map_get_None. }
  unfold get. by rewrite He, Hs.
Qed.

Lemma X14_ttl_get_absent_witness :
  let w := step (OSet (VStr "a") (VNum 1) None 10) (constructor (Some 100) Timers.empty) in
  (reachable w /\ has (VStr "b") (fst w) = false) /\
  get (VStr "b") 5000 (fst w) = (VUndefined, fst w).
Proof.
  assert (Hw : reachable (step (OSet (VStr "a") (VNum 1) None 10)
                            (constructor (Some 100) Timers.empty))).
  { apply reach_step, reach_new. }
  split; [split; [exact Hw | reflexivity]|].
  exact (X14_ttl_get_absent _ (VStr "b") 5000 Hw eq_refl).
Defined.

(** X15: [get] of one key, stale or not, leaves every other key with its
    value and its expiry, and leaves the interval and the timer handle as
    they were. *)
Theorem X15_ttl_get_touches_one_key c key k now :
  k <> key ->
  let c' := snd (get key now c) in
  JsMap.get k (store c') = JsMap.get k (store c) /\
  JsMap.get k (expirationTimes c') = JsMap.get k (expirationTimes c) /\
  interval c' = interval c /\
  expirationInterval c' = expirationInterval c.
Proof.
  intros Hne. unfold get. destruct (stale _ _); simpl; [|done].
  by rewrite !map_get_delete_ne.
Qed.

Lemma X15_ttl_get_touches_one_key_witness :
  let c := fst (run [OSet (VStr "a") (VNum 1) (Some 5) 10; OSet (VStr "b") (VNum 2) (Some 5) 10]
                  (constructor None Timers.empty)) in
  VStr "b" <> VStr "a" /\
  fst (get (VStr "a") 100 c) = VUndefined /\
  JsMap.get (VStr "b") (store (snd (get (VStr "a") 100 c))) = Some (VNum 2).
Proof.
  assert (Hne : VStr "b" <> VStr "a") by discriminate.
  split; [exact Hne|]. split; [reflexivity|].
  exact (proj1 (X15_ttl_get_touches_one_key
    (fst (run [OSet (VStr "a") (VNum 1) (Some 5) 10; OSet (VStr "b") (VNum 2) (Some 5) 10]
            (constructor None Timers.empty)))
    (VStr "a") (VStr "b") 100 Hne)).
Defined.

(** X16: the TTL cache is unbounded: [set] never removes an entry.  The size
    grows by one for a fresh key and stays for a present one, whose value and
    expiry are replaced; every other key keeps its value and its expiry. *)
Theorem X16_ttl_set_never_evicts w key data ttl now k :
  let w' := set key data ttl now w in
  size (fst w') = size (fst w) + (if has key (fst w) then 0 else 1) /\
  JsMap.get key (store (fst w')) = Some data /\
  JsMap.get key (expirationTimes (fst w'))
    = Some (now + default (interval (fst w)) ttl) /\
  (has k (fst w) = true -> has k (fst w') = true) /\
  (k <> key ->
     JsMap.get k (store (fst w')) = JsMap.get k (store (fst w)) /\
     JsMap.get k (expirationTimes (fst w')) = JsMap.get k (expirationTimes (fst w))).
Proof.
  intros w'. unfold w', size, has. rewrite ttl_set_store, ttl_set_expirationTimes.
  repeat split.
  - unfold JsMap.size. destruct (JsMap.has key (store (fst w))) eqn:E.
    + apply map_has_true in E. rewrite map_length_set_present by done. lia.
    + apply map_has_false, map_get_None in E.
      rewrite map_length_set_absent by done. lia.
  - apply map_get_set_eq.
  - apply map_get_set_eq.
  - intros H. apply map_has_true in H. apply map_has_true, map_keys_set_elem. by right.
  - by apply map_get_set_ne.
  - by apply map_get_set_ne.
Qed.

Lemma X16_ttl_set_never_evicts_witness :
  let w := step (OSet (VStr "a") (VNum 1) None 10) (constructor (Some 100) Timers.empty) in
  let w' := set (VStr "b") (VNum 2) (Some 5) 20 w in
  has (VStr "a") (fst w) = true /\ has (VStr "a") (fst w') = true /\ size (fst w') = 2.
Proof.
  destruct (X16_ttl_set_never_evicts
    (step (OSet (VStr "a") (VNum 1) None 10) (constructor (Some 100) Timers.empty))
    (VStr "b") (VNum 2) (Some 5) 20 (VStr "a")) as (H1 & _ & _ & H2 & _).
  split; [reflexivity|]. split; [apply H2; reflexivity | exact H1].
Defined.

(** X17: [clear] empties the cache but does not stop the sweep: the timer
    stays registered and the handle stays in place.  The next firing finds
    the index empty and stops it. *)
Theorem X17_ttl_clear_leaves_timer_to_next_tick w h now :
  reachable w ->
  expirationInterval (fst w) = Some h ->
  let w1 := step OClear w in
  let w2 := fire h now w1 in
  size (fst w1) = 0 /\
  expirationInterval (fst w1) = Some h /\
  Timers.active (snd w1) = [h] /\
  size (fst w2) = 0 /\
  expirationInterval (fst w2) = None /\
  Timers.active (snd w2) = [].
Proof.
  intros Hw%ttl_reachable_wf Hh w1 w2. pose proof Hw as [_ _ Ht _]. rewrite Hh in Ht.
  assert (H1 : w1 = (clear (fst w), snd w)) by done.
  assert (Hrun : Timers.running h (snd w1) = true).
  { rewrite H1. unfold Timers.running. cbn [snd]. rewrite Ht.
    by apply bool_decide_eq_true_2, list_elem_of_singleton. }
  assert (H2 : w2 = (with_handle None (clear (fst w)),
                     Timers.clearInterval (Some h) (snd w))).
  { unfold w2, fire. rewrite Hrun, H1. unfold callback, sweep. cbn. by rewrite Hh. }
  rewrite H1, H2. cbn. rewrite Hh, Ht.
  rewrite filter_cons, decide_False by (intros ?; done). done.
Qed.

Lemma X17_ttl_clear_leaves_timer_to_next_tick_witness :
  let w := step (OSet (VStr "k") (VStr "v") None 100) (constructor (Some 50) Timers.empty) in
  (reachable w /\ expirationInterval (fst w) = Some 1%positive) /\
  Timers.active (snd (step OClear w)) = [1%positive] /\
  Timers.active (snd (fire 1%positive 120 (step OClear w))) = [].
Proof.
  assert (Hw : reachable (step (OSet (VStr "k") (VStr "v") None 100)
                            (constructor (Some 50) Timers.empty))).
  { apply reach_step, reach_new. }
  split; [split; [exact Hw | reflexivity]|].
  destruct (X17_ttl_clear_leaves_timer_to_next_tick _ 1%positive 120 Hw eq_refl)
    as (_ & _ & H1 & _ & _ & H2).
  split; [exact H1 | exact H2].
Defined.

(** X18: lazy and active expiry disagree on a recorded expiry of zero, which
    a [set] at instant [s] with ttl [-s] produces: [get] treats the zero as no
    expiry and returns the value at every instant, while a tick of the sweep
    at any positive instant removes the entry. *)
Theorem X18_ttl_zero_expiry_get_versus_sweep w key data s r :
  reachable w ->
  0 < r ->
  let c := fst (set key data (Some (- s)) s w) in
  JsMap.get key (expirationTimes c) = Some 0 /\
  get key r c = (data, c) /\
  has key (sweep r c) = false.
Proof.
  intros Hw Hr c.
  assert (Hwf : wf (set key data (Some (- s)) s w)).
  { apply ttl_reachable_wf. exact (reach_step (OSet key data (Some (- s)) s) w Hw). }
  assert (He : JsMap.get key (expirationTimes c) = Some 0).
  { unfold c. rewrite ttl_set_expirationTimes. simpl.
    rewrite Z.add_opp_diag_r. apply map_get_set_eq. }
  assert (Hv : JsMap.get key (store c) = Some data).
  { unfold c. rewrite ttl_set_store. apply map_get_set_eq. }
  split; [done|]. split.
  - unfold get. by rewrite He, Hv.
  - destruct (ttl_sweep_lookup r c key (ttl_wf_NoDup_index _ Hwf)) as [_ H2].
    rewrite He in H2. destruct (Z.gtb_spec r 0); [|lia].
    unfold has. by apply map_has_false.
Qed.

Lemma X18_ttl_zero_expiry_get_versus_sweep_witness :
  let c := fst (set (VStr "k") (VStr "v") (Some (- 1000)) 1000
                  (constructor (Some 50) Timers.empty)) in
  (reachable (constructor (Some 50) Timers.empty) /\ 0 < 999999) /\
  get (VStr "k") 999999 c = (VStr "v", c) /\ has (VStr "k") (sweep 999999 c) = false.
Proof.
  split; [split; [apply reach_new | lia]|].
  destruct (X18_ttl_zero_expiry_get_versus_sweep (constructor (Some 50) Timers.empty)
              (VStr "k") (VStr "v") 1000 999999 (reach_new (Some 50)) eq_refl)
    as (_ & H1 & H2).
  split; [exact H1 | exact H2].
Defined.

(** X19: a negative ttl is taken as given: the recorded expiry lies before
    the instant of the [set], so (that expiry not being zero) the entry is
    stale at once and the [get] at the very instant of the [set] removes it
    and returns [undefined]; until such a read [has] still reports the key. *)
Theorem X19_ttl_negative_ttl_is_stale_at_once w key data s t :
  t < 0 ->
  s + t <> 0 ->
  let c := fst (set key data (Some t) s w) in
  has key c = true /\
  get key s c = (VUndefined, expire key c) /\
  has key (snd (get key s c)) = false.
Proof.
  intros Ht Hnz c.
  assert (He : JsMap.get key (expirationTimes c) = Some (s + t)).
  { unfold c. rewrite ttl_set_expirationTimes. apply map_get_set_eq. }
  assert (Hg : get key s c = (VUndefined, expire key c)).
  { apply (ttl_get_stale _ _ _ (s + t)); [done | done | lia]. }
  split; [|split; [done|]].
  - unfold has, c, JsMap.has. by rewrite ttl_set_store, map_get_set_eq.
  - rewrite Hg. unfold has. simpl. apply map_has_false, map_get_delete_eq.
Qed.

Lemma X19_ttl_negative_ttl_is_stale_at_once_witness :
  let c := fst (set (VStr "k") (VStr "v") (Some (- 1)) 1000 (constructor None Timers.empty)) in
  (- 1 < 0 /\ 1000 + - 1 <> 0) /\
  fst (get (VStr "k") 1000 c) = VUndefined.
Proof.
  split; [lia|].
  destruct (X19_ttl_negative_ttl_is_stale_at_once (constructor None Timers.empty)
              (VStr "k") (VStr "v") 1000 (- 1) ltac:(lia) ltac:(lia)) as (_ & H & _).
  apply (f_equal fst) in H. exact H.
Defined.

End TTLMore.

(** * Further properties of REDISCache *)

Section RedisMore.
Import REDISCache.
Context {V R exn : Type}.
Implicit Types (c : REDISCache.t V R exn) (key : string) (r : R) (log : list exn).

Lemma string_app_inj_l (p a b : string) : (p ++ a = p ++ b)%string -> a = b.
Proof. induction p as [|x p IH]; simpl; [done|]. intros [= H]. by apply IH. Qed.

Lemma string_prefix_app (a b t : string) :
  String.prefix (a ++ b) (a ++ (b ++ t)) = true.
Proof.
  induction a as [|x a IH]; simpl.
  - induction b as [|y b IHb]; simpl; [by destruct t|].
    destruct (Ascii.ascii_dec y y); [done | congruence].
  - destruct (Ascii.ascii_dec x x); [done | congruence].
Qed.

(** X20: a [set] followed by a [get] of the same key returns the value that
    was set, when the store accepts the write and then serves the payload
    back, and [JSON] serialises the value to a non-empty text that parses
    back to it.  Neither call prints anything. *)
Theorem X20_redis_set_then_get c key (v : V) (ttl : Z) (payload : string) r r1 r2 log :
  JSON_stringify (JSON c) v = inr payload ->
  payload <> ""%string ->
  JSON_parse (JSON c) payload = inr v ->
  redis_set (redis c) (raw_key c key) payload (if ttl >? 0 then Some ttl else None) r
    = (inr tt, r1) ->
  redis_get (redis c) (raw_key c key) r1 = (inr (Some payload), r2) ->
  set c key v (Some ttl) (r, log) = (inr true, (r1, log)) /\
  get c key (r1, log) = (inr (Some v), (r2, log)).
Proof.
  intros Hs Hne Hp Hset Hget. split.
  - unfold set, try_catch, set_body, bind, eval, await. simpl.
    destruct (ttl >? 0); rewrite Hs; simpl; by rewrite Hset.
  - unfold get, try_catch, get_body, bind, eval, await, present. simpl.
    rewrite Hget. rewrite bool_decide_eq_false_2 by done. by rewrite Hp.
Qed.

(** X21: [set] calls the store at most once.  It asks for an expiry of [ttl]
    seconds exactly when [ttl] is positive; a ttl that is zero, negative or
    omitted stores the entry without expiry.  When the serialisation fails
    the store is not called.  The result is [true] exactly when the call to
    the store succeeded, and only a failure is printed. *)
Theorem X21_redis_set_expiry_option c key (v : V) (ttl : option Z) r log :
  set c key v ttl (r, log)
  = match JSON_stringify (JSON c) v with
    | inl e => (inr false, (r, log ++ [e]))
    | inr payload =>
        let expiration :=
          match ttl with
          | Some t => if t >? 0 then Some t else None
          | None => None
          end in
        match redis_set (redis c) (raw_key c key) payload expiration r with
        | (inl e, r') => (inr false, (r', log ++ [e]))
        | (inr _, r') => (inr true, (r', log))
        end
    end.
Proof.
  unfold set, try_catch, set_body, bind, eval, await, console_error, ret.
  destruct ttl as [t|]; simpl.
  - destruct (t >? 0); destruct (JSON_stringify (JSON c) v) as [e|payload]; simpl; try done;
      by destruct (redis_set _ _ _ _ r) as [[e|[]] r'].
  - destruct (JSON_stringify (JSON c) v) as [e|payload]; simpl; try done.
    by destruct (redis_set _ _ _ _ r) as [[e|[]] r'].
Qed.

(** X22: a key for which the store answers [null] or the empty text reads as
    [undefined]: the payload is not parsed and nothing is printed. *)
Theorem X22_redis_get_empty_payload c key (value : option string) r r' log :
  redis_get (redis c) (raw_key c key) r = (inr value, r') ->
  value = None \/ value = Some ""%string ->
  get c key (r, log) = (inr None, (r', log)).
Proof.
  intros Hget Hv. unfold get, try_catch, get_body, bind, await. simpl. rewrite Hget.
  by destruct Hv as [-> | ->].
Qed.

(** The keys [pre] whose reads leave the store as it is and whose payloads
    parse are passed over by the loop, which collects their values in order. *)
Lemma redis_values_loop_prefix c (pre rest : list string) (acc : list V) r log
    (payload : string -> option string) (dec : string -> V) :
  (forall k, k ∈ pre -> redis_get (redis c) k r = (inr (payload k), r)) ->
  (forall k s, k ∈ pre -> present (payload k) = Some s ->
               JSON_parse (JSON c) s = inr (dec s)) ->
  values_loop c (pre ++ rest) acc (r, log)
  = values_loop c rest (acc ++ omap (fun k => dec <$> present (payload k)) pre) (r, log).
Proof.
  revert acc. induction pre as [|k pre IH]; intros acc Hget Hparse; simpl.
  - by rewrite app_nil_r.
  - unfold bind at 1, await at 1. simpl. rewrite (Hget k) by (apply elem_of_cons; by left).
    assert (Hget' : forall k', k' ∈ pre -> redis_get (redis c) k' r = (inr (payload k'), r))
      by (intros k' ?; apply Hget, elem_of_cons; by right).
    assert (Hparse' : forall k' s, k' ∈ pre -> present (payload k') = Some s ->
                                   JSON_parse (JSON c) s = inr (dec s))
      by (intros k' s ?; apply Hparse, elem_of_cons; by right).
    destruct (present (payload k)) as [s|] eqn:E; simpl.
    + unfold bind at 1, eval at 1.
      rewrite (Hparse k s) by (by (apply elem_of_cons; left) || done).
      rewrite (IH _ Hget' Hparse'). by rewrite <- app_assoc.
    + by rewrite (IH _ Hget' Hparse').
Qed.

(** X23: when the reads leave the store as it is and every payload parses,
    [values] returns the parsed payloads in the order in which the store
    listed the keys, passing over the keys that read as [null] or as the
    empty text, and prints nothing. *)
Theorem X23_redis_values_in_key_order c (keys : list string) r r' log
    (payload : string -> option string) (dec : string -> V) :
  redis_keys (redis c) (identifier c ++ ":*")%string r = (inr keys, r') ->
  (forall k, k ∈ keys -> redis_get (redis c) k r' = (inr (payload k), r')) ->
  (forall k s, k ∈ keys -> present (payload k) = Some s ->
               JSON_parse (JSON c) s = inr (dec s)) ->
  values c (r, log)
  = (inr (omap (fun k => dec <$> present (payload k)) keys), (r', log)).
Proof.
  intros Hkeys Hget Hparse.
  unfold values, try_catch, values_body. unfold bind at 1, await at 1. simpl.
  rewrite Hkeys. rewrite <- (app_nil_r keys) at 1.
  rewrite (redis_values_loop_prefix c keys [] [] r' log payload dec Hget Hparse).
  done.
Qed.

(** X24: [values] is all or nothing: when the read of one key is rejected,
    or its payload does not parse, the values collected from the keys before
    it are dropped, the keys after it are not read, and the result is the
    empty array with that one error printed. *)
Theorem X24_redis_values_all_or_nothing c (pre : list string) (k : string)
    (post : list string) r r' r'' log
    (payload : string -> option string) (dec : string -> V) (e : exn) :
  redis_keys (redis c) (identifier c ++ ":*")%string r = (inr (pre ++ k :: post), r') ->
  (forall k', k' ∈ pre -> redis_get (redis c) k' r' = (inr (payload k'), r')) ->
  (forall k' s, k' ∈ pre -> present (payload k') = Some s ->
                JSON_parse (JSON c) s = inr (dec s)) ->
  redis_get (redis c) k r' = (inl e, r'') \/
  (exists s, redis_get (redis c) k r' = (inr (Some s), r'') /\ s <> ""%string /\
             JSON_parse (JSON c) s = inl e) ->
  values c (r, log) = (inr [], (r'', log ++ [e])).
Proof.
  intros Hkeys Hget Hparse Hfail.
  unfold values, try_catch, values_body. unfold bind at 1, await at 1. simpl.
  rewrite Hkeys.
  rewrite (redis_values_loop_prefix c pre (k :: post) [] r' log payload dec Hget Hparse).
  simpl. unfold bind at 1, await at 1. simpl.
  destruct Hfail as [Hrej | (s & Hs & Hne & Hp)].
  - by rewrite Hrej.
  - rewrite Hs. unfold present. rewrite bool_decide_eq_false_2 by done.
    unfold bind at 1, eval at 1. by rewrite Hp.
Qed.

(** X25: [clear] lists the keys of its namespace and deletes them in one
    call; on an empty namespace it does not call the store a second time.  A
    rejected delete is printed and otherwise ignored. *)
Theorem X25_redis_clear_bulk_delete c (keys : list string) r r' log :
  redis_keys (redis c) (identifier c ++ ":*")%string r = (inr keys, r') ->
  clear c (r, log)
  = match keys with
    | [] => (inr tt, (r', log))
    | _ :: _ =>
        match redis_del (redis c) keys r' with
        | (inl e, r'') => (inr tt, (r'', log ++ [e]))
        | (inr _, r'') => (inr tt, (r'', log))
        end
    end.
Proof.
  intros Hkeys. unfold clear, try_catch, clear_body, bind, await, console_error, ret.
  simpl. rewrite Hkeys. destruct keys as [|k keys]; [done|].
  assert (Hlen : (Z.of_nat (length (k :: keys)) >? 0) = true)
    by (apply Z.gtb_lt; simpl length; lia).
  rewrite Hlen. cbn beta iota. cbn [fst snd].
  by destruct (redis_del (redis c) (k :: keys) r') as [[e|n] r''].
Qed.

(** X26: within one facade distinct keys are stored under distinct raw keys,
    and every raw key starts with the identifier followed by a colon, the
    prefix whose pattern [values], [clear] and [size] list. *)
Theorem X26_redis_raw_key_namespacing c (key1 key2 : string) :
  (raw_key c key1 = raw_key c key2 <-> key1 = key2) /\
  String.prefix (identifier c ++ ":") (raw_key c key1) = true.
Proof.
  split; [split|].
  - unfold raw_key. intros H. apply string_app_inj_l in H.
    by apply (string_app_inj_l ":") in H.
  - by intros ->.
  - apply string_prefix_app.
Qed.

End RedisMore.

Lemma X20_redis_set_then_get_witness :
  let r := {| FlakyStore.entries := []; FlakyStore.down := false |} in
  let r1 := {| FlakyStore.entries := [("app:k", "true")%string]; FlakyStore.down := false |} in
  (REDISCache.JSON_stringify FlakyStore.json true = inr "true"%string /\
   REDISCache.JSON_parse FlakyStore.json "true" = inr true) /\
  REDISCache.set FlakyStore.cache "k" true (Some 60) (r, []) = (inr true, (r1, [])) /\
  REDISCache.get FlakyStore.cache "k" (r1, []) = (inr (Some true), (r1, [])).
Proof.
  split; [split; reflexivity|].
  apply (X20_redis_set_then_get FlakyStore.cache "k" true 60 "true"
           {| FlakyStore.entries := []; FlakyStore.down := false |});
    [reflexivity | discriminate | reflexivity | reflexivity | reflexivity].
Defined.

Lemma X22_redis_get_empty_payload_witness :
  let r := {| FlakyStore.entries := [("app:k", "")%string]; FlakyStore.down := false |} in
  REDISCache.redis_get FlakyStore.client "app:k" r = (inr (Some ""%string), r) /\
  REDISCache.get FlakyStore.cache "k" (r, []) = (inr None, (r, [])).
Proof.
  split; [reflexivity|].
  apply (X22_redis_get_empty_payload FlakyStore.cache "k" (Some ""%string));
    [reflexivity | by right].
Defined.

Lemma X25_redis_clear_bulk_delete_witness :
  let r := {| FlakyStore.entries := [("other:k", "true")%string]; FlakyStore.down := false |} in
  REDISCache.redis_keys FlakyStore.client "app:*" r = (inr [], r) /\
  REDISCache.clear FlakyStore.cache (r, []) = (inr tt, (r, [])).
Proof.
  split; [reflexivity|].
  exact (X25_redis_clear_bulk_delete FlakyStore.cache []
           {| FlakyStore.entries := [("other:k", "true")%string]; FlakyStore.down := false |}
           _ [] eq_refl).
Defined.

Lemma X23_redis_values_in_key_order_witness :
  let r := {| FlakyStore.entries :=
                [("app:a", "true"); ("app:b", ""); ("app:c", "false"); ("other:x", "true")]%string;
              FlakyStore.down := false |} in
  REDISCache.redis_keys FlakyStore.client "app:*" r = (inr ["app:a"; "app:b"; "app:c"]%string, r) /\
  REDISCache.values FlakyStore.cache (r, []) = (inr [true; false], (r, [])).
Proof.
  intros r. split; [reflexivity|].
  assert (Hget : forall k, k ∈ ["app:a"; "app:b"; "app:c"]%string ->
            REDISCache.redis_get FlakyStore.client k r = (inr (FlakyStore.lookup k r), r))
    by (intros k _; reflexivity).
  assert (Hparse : forall k s, k ∈ ["app:a"; "app:b"; "app:c"]%string ->
            REDISCache.present (FlakyStore.lookup k r) = Some s ->
            REDISCache.JSON_parse FlakyStore.json s = inr (bool_decide (s = "true"%string))).
  { intros k s Hk Hs.
    repeat (apply elem_of_cons in Hk as [->|Hk]); [| | |by apply elem_of_nil in Hk];
      vm_compute in Hs; try discriminate; injection Hs as <-; reflexivity. }
  exact (X23_redis_values_in_key_order FlakyStore.cache ["app:a"; "app:b"; "app:c"]%string
           r r [] (fun k => FlakyStore.lookup k r)
           (fun s => bool_decide (s = "true"%string)) eq_refl Hget Hparse).
Defined.

Lemma X24_redis_values_all_or_nothing_witness :
  let r := {| FlakyStore.entries := [("app:a", "true"); ("app:b", "{")]%string;
              FlakyStore.down := false |} in
  REDISCache.redis_keys FlakyStore.client "app:*" r = (inr ["app:a"; "app:b"]%string, r) /\
  REDISCache.values FlakyStore.cache (r, []) = (inr [], (r, [FlakyStore.SyntaxError])).
Proof.
  intros r. split; [reflexivity|].
  assert (Hget : forall k, k ∈ ["app:a"%string] ->
            REDISCache.redis_get FlakyStore.client k r = (inr (FlakyStore.lookup k r), r))
    by (intros k _; reflexivity).
  assert (Hparse : forall k s, k ∈ ["app:a"%string] ->
            REDISCache.present (FlakyStore.lookup k r) = Some s ->
            REDISCache.JSON_parse FlakyStore.json s = inr (bool_decide (s = "true"%string))).
  { intros k s Hk Hs.
    apply elem_of_cons in Hk as [->|Hk]; [|by apply elem_of_nil in Hk].
    vm_compute in Hs. injection Hs as <-. reflexivity. }
  assert (Hfail : REDISCache.redis_get FlakyStore.client "app:b" r
                    = (inl FlakyStore.SyntaxError, r) \/
            (exists s, REDISCache.redis_get FlakyStore.client "app:b" r = (inr (Some s), r) /\
                       s <> ""%string /\
                       REDISCache.JSON_parse FlakyStore.json s = inl FlakyStore.SyntaxError)).
  { right. exists "{"%string. split; [reflexivity|]. split; [discriminate | reflexivity]. }
  exact (X24_redis_values_all_or_nothing FlakyStore.cache ["app:a"%string] "app:b" []
           r r r [] (fun k => FlakyStore.lookup k r)
           (fun s => bool_decide (s = "true"%string)) FlakyStore.SyntaxError
           eq_refl Hget Hparse Hfail).
Defined.

(** X27: below its capacity a cache evicts nothing on [set]: a fresh key is
    appended behind all others, a present key has its value overwritten
    without changing the order of the keys, and every other key keeps its
    value. *)
Theorem X27_lru_set_below_capacity (c : LRUCache.t) (key v k : value) :
  LRUCache.size c < LRUCache.capacity c ->
  (key ∉ LRUCache.keys c ->
     LRUCache.store (LRUCache.set key v c) = LRUCache.store c ++ [(key, v)]) /\
  (key ∈ LRUCache.keys c ->
     LRUCache.keys (LRUCache.set key v c) = LRUCache.keys c /\
     LRUCache.size (LRUCache.set key v c) = LRUCache.size c) /\
  JsMap.get key (LRUCache.store (LRUCache.set key v c)) = Some v /\
  (k <> key ->
     JsMap.get k (LRUCache.store (LRUCache.set key v c)) = JsMap.get k (LRUCache.store c)).
Proof.
  intros Hlt. unfold LRUCache.keys, LRUCache.size. rewrite (lru_set_below key v c Hlt).
  split; [|split; [|split]].
  - intros H. by apply map_set_absent, map_get_None.
  - intros H. split; [by apply map_keys_set_present|].
    unfold JsMap.size. by rewrite map_length_set_present.
  - apply map_get_set_eq.
  - intros H. by apply map_get_set_ne.
Qed.

Lemma X27_lru_set_below_capacity_witness :
  let c := LRUCache.set_all [(VStr "a", VNum 1); (VStr "b", VNum 2)]
             (LRUCache.constructor (Some 3)) in
  LRUCache.size c < LRUCache.capacity c /\
  LRUCache.keys (LRUCache.set (VStr "a") (VNum 9) c) = [VStr "a"; VStr "b"] /\
  LRUCache.store (LRUCache.set (VStr "z") (VNum 0) c)
  = [(VStr "a", VNum 1); (VStr "b", VNum 2); (VStr "z", VNum 0)].
Proof.
  intros c. assert (Hlt : LRUCache.size c < LRUCache.capacity c) by reflexivity.
  split; [exact Hlt|]. split.
  - destruct (X27_lru_set_below_capacity c (VStr "a") (VNum 9) (VStr "b") Hlt)
      as (_ & H & _).
    apply H. apply (bool_decide_unpack _). vm_compute. exact I.
  - destruct (X27_lru_set_below_capacity c (VStr "z") (VNum 0) (VStr "b") Hlt)
      as (H & _).
    apply H. apply (bool_decide_unpack _). vm_compute. exact I.
Defined.
